(** * The command palette of [src/components/pallette.tsx]

    A shallow embedding of the palette component: the filter over the
    caller's items, the selection that follows it, keyboard navigation,
    acceptance, the visibility controller with its scroll lock, and the
    outside-click hook.

    React is modelled by what it does to the component's state.  An event
    handler reads the values of the render it was created in and issues
    state updates ([Action]s); the updates are applied, the component is
    rendered again, and every effect whose dependencies changed runs before
    the next event is dispatched.  A string is the UTF-8 bytes of its
    text.  [<Transition>] keeps its child mounted while the leave
    transition runs; the end of that transition is an event of its own. *)

From Stdlib Require Import ZArith Ascii String.
From stdpp Require Import base option list strings gmap.

Open Scope Z_scope.

(** ** The JavaScript built-ins the component calls *)

Module JS.

(** Values a handler can produce: a value, or a thrown [TypeError]
    (reading a property of [undefined]). *)
Inductive result (A : Type) : Type :=
| Ok (a : A)
| TypeError.
Arguments Ok {A} a.
Arguments TypeError {A}.

(** [String.prototype.toLowerCase] is a built-in that follows the Unicode
    case tables; it is not a function of this repository.  What must hold
    of the component whatever those tables say is stated for an arbitrary
    lower-casing function ([filteredItemsWith] below).  For running the
    component on concrete strings the built-in is modelled on the part of
    Unicode spelled out here: the Basic Latin letters and the Greek
    letters [Α]..[Ω], with the Final_Sigma rule decided on the neighbouring
    characters.  A string is the UTF-8 bytes of its text; every other
    character is copied. *)

(** Basic Latin: [A]..[Z] (65..90) move to [a]..[z]. *)
Definition lower_unit (c : ascii) : ascii :=
  let n := nat_of_ascii c in
  if ((65 <=? n) && (n <=? 90))%nat then ascii_of_nat (n + 32) else c.

Definition is_latin_letter (n : nat) : bool :=
  (((65 <=? n) && (n <=? 90)) || ((97 <=? n) && (n <=? 122)))%nat.

(** The two bytes [n m] spell a Greek letter: [Α]..[Ω] is CE 91..CE A9
    (CE A2 is unassigned), [α]..[ο] is CE B1..CE BF, [π]..[ω] is
    CF 80..CF 89. *)
Definition is_greek_letter (n m : nat) : bool :=
  (((n =? 206) &&
    (((145 <=? m) && (m <=? 161)) || ((163 <=? m) && (m <=? 169)) ||
     ((177 <=? m) && (m <=? 191)))) ||
   ((n =? 207) && ((128 <=? m) && (m <=? 137))))%nat.

(** The string begins with a cased letter. *)
Definition starts_cased (s : string) : bool :=
  match s with
  | EmptyString => false
  | String c rest =>
      is_latin_letter (nat_of_ascii c) ||
      match rest with
      | EmptyString => false
      | String d _ => is_greek_letter (nat_of_ascii c) (nat_of_ascii d)
      end
  end.

(** Lower-casing from left to right; [after_cased] tells whether the
    character just before is a cased letter.  [Σ] (CE A3) becomes the final
    form [ς] (CF 82) after a cased letter when no cased letter follows, and
    [σ] (CF 83) otherwise; [Α]..[Ο] (CE 91..9F) become CE B1..BF and
    [Π]..[Ω] (CE A0..A9) become CF 80..89. *)
Fixpoint lower_from (after_cased : bool) (s : string) : string :=
  match s with
  | EmptyString => EmptyString
  | String c rest =>
      let n := nat_of_ascii c in
      match rest with
      | String d rest' =>
          let m := nat_of_ascii d in
          if (n =? 206)%nat && (m =? 163)%nat then
            String (ascii_of_nat 207)
              (String (ascii_of_nat
                         (if after_cased && negb (starts_cased rest') then 130 else 131))
                 (lower_from true rest'))
          else if (n =? 206)%nat && ((145 <=? m) && (m <=? 159))%nat then
            String c (String (ascii_of_nat (m + 32)) (lower_from true rest'))
          else if (n =? 206)%nat && (((160 <=? m) && (m <=? 161)) ||
                                     ((164 <=? m) && (m <=? 169)))%nat then
            String (ascii_of_nat 207)
              (String (ascii_of_nat (m - 32)) (lower_from true rest'))
          else if is_greek_letter n m then
            String c (String d (lower_from true rest'))
          else String (lower_unit c) (lower_from (is_latin_letter n) rest)
      | EmptyString => String (lower_unit c) EmptyString
      end
  end.

Definition toLowerCase (s : string) : string := lower_from false s.

(** [s.startsWith(p)], the test [includes] makes at each position. *)
Fixpoint startsWith (s p : string) : bool :=
  match p, s with
  | EmptyString, _ => true
  | String _ _, EmptyString => false
  | String a p', String b s' => if decide (a = b) then startsWith s' p' else false
  end.

(** [s.includes(p)]: [p] occurs in [s] at some position. *)
Fixpoint includes (s p : string) : bool :=
  startsWith s p ||
  match s with
  | EmptyString => false
  | String _ s' => includes s' p
  end.

(** [arr[i]] for a number [i]: [undefined] outside [0 .. length-1]. *)
Definition at_index {A} (arr : list A) (i : Z) : option A :=
  if i <? 0 then None else arr !! Z.to_nat i.

(** [arr.indexOf(x)]: position of the first element strictly equal to [x],
    [-1] when there is none. *)
Fixpoint indexOf_from {A} `{EqDecision A} (arr : list A) (x : A) (i : Z) : Z :=
  match arr with
  | [] => -1
  | y :: arr' => if decide (y = x) then i else indexOf_from arr' x (i + 1)
  end.

(** The argument may be [undefined] (a failed map lookup); no array of
    items holds [undefined], so that search finds nothing. *)
Definition indexOf {A} `{EqDecision A} (arr : list A) (x : option A) : Z :=
  match x with
  | Some x => indexOf_from arr x 0
  | None => -1
  end.

(** [a ?? b]. *)
Definition nullish {A} (a b : option A) : option A :=
  match a with
  | Some x => Some x
  | None => b
  end.

End JS.

Import JS.

(** ** Command items *)

(** A [CommandItem] object.  [oid] is the identity of the object: [indexOf]
    compares items by reference, and two items are the same Rocq value
    exactly when they are the same object. *)
Record CommandItem : Type := mkItem {
  oid : nat;
  key : string;
  name : string;
}.

Global Instance CommandItem_eq_dec : EqDecision CommandItem.
Proof. solve_decision. Defined.

(** [arr[0]?.key]. *)
Definition first_key (arr : list CommandItem) : option string :=
  key <$> at_index arr 0.

(** ** CommandContainer *)

Module Container.

(** The props and state of one [CommandContainer]: the caller's [items],
    the query [predicate] and the [selected] key. *)
Record State : Type := mkState {
  items : list CommandItem;
  predicate : string;
  selected : option string;
}.

Global Instance State_eq_dec : EqDecision State.
Proof. solve_decision. Defined.

(** [itemMap]: [items.reduce((map, item) => (map[item.key] = item, map), {})].
    A later item replaces an earlier one with the same key.  The map is
    only ever read at [selected]; what a plain object inherits from
    [Object.prototype] is not part of the model. *)
Definition itemMap (its : list CommandItem) : gmap string CommandItem :=
  foldl (fun map item => <[key item := item]> map) ∅ its.

(** [filteredItems], with the built-in [toLowerCase] as the parameter
    [lower]. *)
Definition filteredItemsWith (lower : string -> string)
    (its : list CommandItem) (pred : string) : list CommandItem :=
  if (Z.of_nat (String.length pred) <=? 0) then its
  else List.filter (fun item => includes (lower (name item)) (lower pred)) its.

(** [filteredItems]. *)
Definition filteredItems (its : list CommandItem) (pred : string) : list CommandItem :=
  filteredItemsWith toLowerCase its pred.

Definition filtered (st : State) : list CommandItem :=
  filteredItems (items st) (predicate st).

(** What a handler or an effect asks for. *)
Inductive Action : Type :=
| SetSelected (k : option string)
| SetPredicate (q : string)
| Alert (text : string).

Inductive KeyName : Type := ArrowDown | ArrowUp | OtherKey.

(** [acceptCommand]. *)
Definition acceptCommand (st : State) : result (list Action) :=
  match selected st with
  | Some k =>
      match itemMap (items st) !! k with
      | Some command => Ok [Alert (name command)]
      | None => TypeError
      end
  | None => Ok []
  end.

(** [moveFocus]. *)
Definition moveFocus (st : State) (e : KeyName) : result (list Action) :=
  let fi := filtered st in
  let len := Z.of_nat (length fi) in
  if len <=? 0 then Ok []
  else
    let selectedIndex :=
      match selected st with
      | Some k => indexOf fi (itemMap (items st) !! k)
      | None => 0
      end in
    match e with
    | ArrowDown =>
        match at_index fi (Z.rem (selectedIndex + 1) len) with
        | Some item => Ok [SetSelected (Some (key item))]
        | None => TypeError
        end
    | ArrowUp =>
        Ok [SetSelected (nullish (key <$> at_index fi (selectedIndex - 1))
                                 (key <$> at_index fi (len - 1)))]
    | OtherKey => Ok []
    end.

(** The input's [onInput]. *)
Definition onInput (value : string) : list Action := [SetPredicate value].

(** The effect on [[filteredItems, items]]: [setSelected(filteredItems[0]?.key)]. *)
Definition selectFirst (st : State) : list Action :=
  [SetSelected (first_key (filtered st))].

Definition apply (st : State) (a : Action) : State :=
  match a with
  | SetSelected k => mkState (items st) (predicate st) k
  | SetPredicate q => mkState (items st) q (selected st)
  | Alert _ => st
  end.

Definition applyAll (st : State) (acts : list Action) : State :=
  foldl apply st acts.

(** The updates of a handler; a handler that throws updates nothing. *)
Definition updates (r : result (list Action)) : list Action :=
  match r with
  | Ok acts => acts
  | TypeError => []
  end.

(** Rendering after an update.  [filteredItems] is memoised on
    [[items, predicate]]: it is a new array when the predicate string
    changed (a fresh [filter] result, or [items] itself in place of one)
    and when the caller passed a new [items] array.  The effect on
    [[filteredItems, items]] runs exactly then. *)
Definition commit (itemsChanged : bool) (old new : State) : State :=
  if itemsChanged || negb (bool_decide (predicate old = predicate new))
  then applyAll new (selectFirst new)
  else new.

(** The operations on a mounted container. *)
Inductive Op : Type :=
| Input (value : string)
| KeyDown (e : KeyName)
| Enter
| Recompute
| ItemsChanged (its : list CommandItem).

Definition step (st : State) (op : Op) : State :=
  match op with
  | Input value => commit false st (applyAll st (onInput value))
  | KeyDown e => commit false st (applyAll st (updates (moveFocus st e)))
  | Enter => commit false st (applyAll st (updates (acceptCommand st)))
  | Recompute => applyAll st (selectFirst st)
  | ItemsChanged its => commit true st (mkState its (predicate st) (selected st))
  end.

(** What the user is shown by [alert] during an operation. *)
Definition alerts (st : State) (op : Op) : list string :=
  match op with
  | Enter =>
      omap (fun a => match a with Alert t => Some t | _ => None end)
           (updates (acceptCommand st))
  | _ => []
  end.

(** Mounting: [useState('')], [useState(items[0]?.key)], then the mount
    effects. *)
Definition init (its : list CommandItem) : State :=
  let st := mkState its EmptyString (first_key its) in
  applyAll st (selectFirst st).

Definition run (st : State) (ops : list Op) : State := foldl step st ops.

(** What the container renders below the input: one [CommandItemView] per
    filtered item, with [key={item.key}], [item={item}] and
    [selected={item.key === selected}]. *)
Record Row : Type := mkRow {
  row_key : string;
  row_item : CommandItem;
  row_selected : bool;
}.

Definition rows (st : State) : list Row :=
  map (fun item => mkRow (key item) item (bool_decide (Some (key item) = selected st)))
      (filtered st).

(** [filteredItems.length === 0 && ...]: the "No Items" notice. *)
Definition showNoItems (st : State) : bool :=
  Z.of_nat (length (filtered st)) =? 0.

End Container.

Import Container.

(** ** Palette: visibility and the scroll lock *)

Module Palette.

(** The [Palette] component and what it touches: whether it is in the
    host's tree, its [open] state, its [items] prop, the
    [CommandContainer] that [<Transition show={open}>] keeps mounted while
    the palette is shown, and [document.body.style.overflowY]. *)
Record State : Type := mkState {
  mounted : bool;
  open : bool;
  items : list CommandItem;
  container : option Container.State;
  overflowY : string;
}.

Inductive Event : Type :=
| Hotkey                                  (* cmd+k / ctrl+k *)
| Escape                                  (* esc, bound by the container *)
| ClickOutside                            (* a click for which useOutsideClick calls close *)
| Typed (value : string)                  (* onInput *)
| Key (e : KeyName)                       (* onKeyDown *)
| EnterKey                                (* enter, bound by the container *)
| NewItems (its : list CommandItem)       (* the host passes another array *)
| LeaveEnd                                (* the leave transition has run to its end *)
| Unmount.                                (* the host removes the palette *)

(** The effect on [[open]]:
    [document.body.style.overflowY = open ? 'hidden' : 'auto'].
    It returns no cleanup function. *)
Definition scrollLock (st : State) : State :=
  mkState (mounted st) (open st) (items st) (container st)
          (if open st then "hidden" else "auto")%string.

(** [<Transition show={open}>]: while the palette is shown the container
    is mounted, with fresh state if it was not mounted before; when the
    palette is hidden the container stays mounted, with its state, for the
    leave transition ([leaveFrom], [leaveTo]). *)
Definition show (st : State) : State :=
  mkState (mounted st) (open st) (items st)
          (if open st
           then Some (default (Container.init (items st)) (container st))
           else container st)
          (overflowY st).

(** The leave transition ends: the container of a hidden palette
    unmounts.  A palette that was shown again in the meantime keeps it. *)
Definition leaveEnd (st : State) : State :=
  mkState (mounted st) (open st) (items st)
          (if open st then container st else None)
          (overflowY st).

Definition setOpen (st : State) (v : bool) : State :=
  mkState (mounted st) v (items st) (container st) (overflowY st).

(** Rendering after an update of [open]; the scroll effect runs when
    [open] changed. *)
Definition commit (old new : State) : State :=
  let new := show new in
  if bool_decide (open old = open new) then new else scrollLock new.

(** The [close] callback handed to the container: [setOpen(false)]. *)
Definition close (st : State) : State := commit st (setOpen st false).

(** The hotkey handler: [setOpen(v => !v)]. *)
Definition toggle (st : State) : State := commit st (setOpen st (negb (open st))).

Definition child (st : State) (op : Container.Op) : State :=
  mkState (mounted st) (open st) (items st)
          ((fun c => Container.step c op) <$> container st)
          (overflowY st).

(** Mounting: [useState(false)]; the effects of the first render run. *)
Definition mount (its : list CommandItem) (hostOverflowY : string) : State :=
  scrollLock (show (mkState true false its None hostOverflowY)).

Definition step (st : State) (ev : Event) : State :=
  if negb (mounted st) then st
  else
    match ev with
    | Hotkey => toggle st
    | Escape | ClickOutside =>
        match container st with
        | Some _ => close st
        | None => st
        end
    | Typed value => child st (Input value)
    | Key e => child st (KeyDown e)
    | EnterKey => child st Enter
    | NewItems its =>
        child (mkState (mounted st) (open st) its (container st) (overflowY st))
              (ItemsChanged its)
    | LeaveEnd => leaveEnd st
    | Unmount => mkState false (open st) (items st) None (overflowY st)
    end.

Definition run (st : State) (evs : list Event) : State := foldl step st evs.

(** The palette is on screen. *)
Definition visible (st : State) : bool := mounted st && open st.

Definition scrollLocked (st : State) : bool :=
  bool_decide (overflowY st = "hidden"%string).

End Palette.

(** ** useOutsideClick *)

Module OutsideClick.

Section Hook.

(** DOM nodes and [Node.prototype.contains] (a node contains itself and
    its descendants). *)
Context {Node : Type}.
Variable contains : Node -> Node -> bool.

(** The hook's ref, the document's [click] listeners (each closure the
    effect creates is named by a number), the listener the pending
    cleanup will remove, and the next unused name. *)
Record State : Type := mkState {
  current : option Node;
  listeners : list nat;
  registered : option nat;
  fresh : nat;
}.

(** [handler]: how many times one listener invokes the callback for a
    click on [target]. *)
Definition handler (st : State) (target : Node) : nat :=
  match current st with
  | None => 0%nat
  | Some c => if contains c target then 0%nat else 1%nat
  end.

(** The document dispatches a click to every listener it holds. *)
Definition dispatchClick (st : State) (target : Node) : nat :=
  foldr (fun _ n => (handler st target + n)%nat) 0%nat (listeners st).

Definition addEventListener (ls : list nat) (h : nat) : list nat :=
  if bool_decide (h ∈ ls) then ls else ls ++ [h].

Definition removeEventListener (ls : list nat) (h : nat) : list nat :=
  List.filter (fun h' => negb (Nat.eqb h' h)) ls.

(** The effect body and the cleanup it returns. *)
Definition effect (st : State) : State :=
  mkState (current st) (addEventListener (listeners st) (fresh st))
          (Some (fresh st)) (S (fresh st)).

Definition cleanup (st : State) : State :=
  match registered st with
  | Some h => mkState (current st) (removeEventListener (listeners st) h)
                      None (fresh st)
  | None => st
  end.

(** The container mounts: the ref is attached to [region], the effect runs. *)
Definition mount (region : Node) : State :=
  effect (mkState (Some region) [] None 0%nat).

(** A later render.  [stableCallback] is memoised on [[callback]]; when
    the caller passed another function the effect is torn down and run
    again, otherwise nothing happens. *)
Definition rerender (callbackChanged : bool) (st : State) : State :=
  if callbackChanged then effect (cleanup st) else st.

Definition renders (st : State) (rs : list bool) : State :=
  foldl (fun st r => rerender r st) st rs.

(** The container unmounts: the ref is cleared, the cleanup runs. *)
Definition unmount (st : State) : State :=
  cleanup (mkState None (listeners st) (registered st) (fresh st)).

End Hook.

(** A small document: [body] (0) holds the overlay (1), which holds the
    container (2) with its input (3) and list (4). *)
Definition subtree (n : nat) : list nat :=
  match n with
  | 0%nat => [0; 1; 2; 3; 4]%nat
  | 1%nat => [1; 2; 3; 4]%nat
  | 2%nat => [2; 3; 4]%nat
  | _ => [n]
  end.

Definition demo_contains (c target : nat) : bool := bool_decide (target ∈ subtree c).

End OutsideClick.

(** ** The specification's vocabulary *)

(** [part] occurs in [s], between some prefix and some suffix. *)
Definition substring_of (part s : string) : Prop :=
  exists before after : string, s = (before +:+ part +:+ after)%string.

(** The specification's wording for the filter: [s] contains [q] as a
    case-insensitive substring, that is, some part of [s] is [q] up to the
    case of its letters. *)
Definition same_ignoring_case (a b : string) : Prop :=
  toLowerCase a = toLowerCase b.

Definition contains_ignoring_case (s q : string) : Prop :=
  exists part, substring_of part s /\ same_ignoring_case part q.

(** Basic Latin text: every byte is below 128. *)
Fixpoint is_latin_text (s : string) : bool :=
  match s with
  | EmptyString => true
  | String c s' => (nat_of_ascii c <? 128)%nat && is_latin_text s'
  end.

(** Two characters that are the same up to case, read off the alphabet and
    not off [toLowerCase]: the same character, or a capital [A]..[Z] and
    its small letter, which lies 32 further. *)
Definition same_letter (c d : ascii) : bool :=
  let n := nat_of_ascii c in
  let m := nat_of_ascii d in
  ((n =? m) ||
   (((65 <=? n) && (n <=? 90)) && (m =? n + 32)) ||
   (((65 <=? m) && (m <=? 90)) && (n =? m + 32)))%nat.

Fixpoint same_text (a b : string) : bool :=
  match a, b with
  | EmptyString, EmptyString => true
  | String c a', String d b' => same_letter c d && same_text a' b'
  | _, _ => false
  end.

(** [s] contains [q] as a case-insensitive substring, for Basic Latin
    text: some part of [s] is [q] letter by letter up to case. *)
Definition contains_ignoring_latin_case (s q : string) : Prop :=
  exists part, substring_of part s /\ same_text part q = true.

(** A string changed character by character. *)
Fixpoint map_string (f : ascii -> ascii) (s : string) : string :=
  match s with
  | EmptyString => EmptyString
  | String c s' => String (f c) (map_string f s')
  end.

(** What the filter tests: the lower-cased query occurs in the lower-cased
    name, each lower-cased as a whole by [lower]. *)
Definition lowered_contains (lower : string -> string) (s q : string) : Prop :=
  substring_of (lower q) (lower s).

(** [select_where P l l']: [l'] is [l] with exactly the elements that
    satisfy [P] kept, in the order of [l]. *)
Inductive select_where {A : Type} (P : A -> Prop) : list A -> list A -> Prop :=
| select_nil : select_where P [] []
| select_keep x l l' : P x -> select_where P l l' -> select_where P (x :: l) (x :: l')
| select_drop x l l' : ~ P x -> select_where P l l' -> select_where P (x :: l) l'.

(** The position of the first item of [fi] whose key is [k]. *)
Definition key_index (fi : list CommandItem) (k : string) : option nat :=
  fst <$> list_find (fun item => key item = k) fi.

Inductive Direction : Type := Next | Previous.

Definition direction_key (d : Direction) : KeyName :=
  match d with
  | Next => ArrowDown
  | Previous => ArrowUp
  end.

(** [moveSelection] as the specification words it: an absent or not-found
    Selection counts as index 0; "next" goes to [(index+1) mod length],
    "previous" to [index-1], wrapping to the last element from index 0. *)
Definition spec_index (fi : list CommandItem) (sel : option string) : nat :=
  match sel with
  | Some k => default 0%nat (key_index fi k)
  | None => 0%nat
  end.

Definition spec_moveSelection (d : Direction) (fi : list CommandItem)
    (sel : option string) : option string :=
  match fi with
  | [] => sel
  | _ :: _ =>
      let i := spec_index fi sel in
      match d with
      | Next => key <$> fi !! ((i + 1) mod length fi)%nat
      | Previous =>
          match i with
          | O => key <$> last fi
          | S j => key <$> fi !! j
          end
      end
  end.

(** The index [moveFocus] works with: an absent Selection counts as index
    0, a Selection that is the key of no filtered item as [-1]. *)
Definition focus_index (fi : list CommandItem) (sel : option string) : Z :=
  match sel with
  | Some k =>
      match key_index fi k with
      | Some i => Z.of_nat i
      | None => -1
      end
  | None => 0
  end.

(** While the palette is mounted, the document's [overflowY] mirrors
    [open], and the container is mounted whenever [open] holds. *)
Definition scroll_tracks_open (p : Palette.State) : Prop :=
  Palette.mounted p = true /\
  Palette.overflowY p = (if Palette.open p then "hidden" else "auto")%string /\
  (Palette.open p = true -> is_Some (Palette.container p)).

(** While the container is mounted the document holds exactly one
    listener of the hook, and the ref points at the region. *)
Definition one_listener {Node : Type} (region : Node)
    (st : @OutsideClick.State Node) : Prop :=
  exists h, st = OutsideClick.mkState (Some region) [h] (Some h) (S h).

(** The state in which the filtered item at position [i] is selected. *)
Definition select_at (st : Container.State) (i : nat) : Container.State :=
  Container.mkState (items st) (predicate st) (key <$> filtered st !! i).

(** Selection is absent exactly when nothing is listed. *)
Definition selection_tracks (st : Container.State) : Prop :=
  selected st = None <-> filtered st = [].

(** [Selection] refers to a filtered item. *)
Definition selection_valid (st : Container.State) : Prop :=
  forall k, selected st = Some k -> k ∈ key <$> filtered st.

(** The mounted container, if any, has a Selection that refers to a
    filtered item. *)
Definition container_valid (p : Palette.State) : Prop :=
  forall c, Palette.container p = Some c -> selection_valid c.

(** ** The scenario of the specification *)

Definition scenario : list CommandItem :=
  [ mkItem 0 "a" "Open File"; mkItem 1 "b" "Open Folder"; mkItem 2 "c" "Save" ].

Example filter_open : key <$> filteredItems scenario "open" = ["a"; "b"]%string.
Proof. reflexivity. Qed.

Example filter_upper : filteredItems scenario "OPEN" = filteredItems scenario "open".
Proof. reflexivity. Qed.

Example filter_none : filteredItems scenario "xyz" = [].
Proof. reflexivity. Qed.

Example scenario_next_next :
  selected (run (init scenario) [Input "open"; KeyDown ArrowDown]) = Some "b"%string /\
  selected (run (init scenario) [Input "open"; KeyDown ArrowDown; KeyDown ArrowDown]) = Some "a"%string.
Proof. split; reflexivity. Qed.

Example scenario_accept :
  alerts (run (init scenario) [Input "open"; KeyDown ArrowDown; KeyDown ArrowDown]) Enter
    = ["Open File"]%string.
Proof. reflexivity. Qed.

Example scenario_no_match :
  selected (run (init scenario) [Input "xyz"]) = None /\
  acceptCommand (run (init scenario) [Input "xyz"]) = Ok [].
Proof. split; reflexivity. Qed.

Example scenario_previous_wraps :
  selected (run (init scenario) [KeyDown ArrowUp]) = Some "c"%string.
Proof. reflexivity. Qed.

(** * Properties *)

(** ** Strings and arrays *)

Lemma startsWith_spec (s p : string) :
  startsWith s p = true <-> exists after, s = (p +:+ after)%string.
Proof.
  revert s. induction p as [|a p IH]; intros s; simpl.
  - split; [intros _; by exists s | by destruct s].
  - destruct s as [|b s].
    + split; [done | intros [after H]; discriminate].
    + simpl. destruct (decide (a = b)) as [->|Hne].
      * rewrite IH. split; intros [after H]; exists after.
        -- by rewrite H.
        -- by injection H.
      * split; [done | intros [after H]; injection H; congruence].
Qed.

Lemma includes_spec (s p : string) :
  includes s p = true <->
  exists before after, s = (before +:+ p +:+ after)%string.
Proof.
  induction s as [|c s IH]; cbn [includes].
  - rewrite orb_false_r, startsWith_spec. split.
    + intros [after H]. by exists EmptyString, after.
    + intros [[|b before] [after H]]; [by exists after | discriminate].
  - rewrite orb_true_iff, startsWith_spec, IH. split.
    + intros [[after H] | (before & after & H)].
      * by exists EmptyString, after.
      * exists (String c before), after. simpl. by rewrite H.
    + intros ([|b before] & after & H).
      * left. by exists after.
      * right. exists before, after. simpl in H. by injection H.
Qed.

Lemma includes_substring_of (s p : string) :
  includes s p = true <-> substring_of p s.
Proof. apply includes_spec. Qed.

Lemma length_nonpositive (s : string) :
  (Z.of_nat (String.length s) <=? 0) = true <-> s = EmptyString.
Proof.
  destruct s; simpl.
  - done.
  - split; [intros H; apply Z.leb_le in H; lia | done].
Qed.

Lemma lower_from_empty (after_cased : bool) (s : string) :
  lower_from after_cased s = EmptyString <-> s = EmptyString.
Proof.
  destruct s as [|c [|d rest]]; [done | done |].
  cbn [lower_from]. cbv zeta.
  destruct (_ && _); [done|]. destruct (_ && _); [done|].
  destruct (_ && _); [done|]. destruct (is_greek_letter _ _); done.
Qed.

Lemma toLowerCase_empty (s : string) :
  toLowerCase s = EmptyString <-> s = EmptyString.
Proof. apply lower_from_empty. Qed.

Lemma select_where_filter {A} (P : A -> Prop) (f : A -> bool) (l : list A) :
  (forall x, f x = true <-> P x) -> select_where P l (List.filter f l).
Proof.
  intros Hf. induction l as [|x l IH]; simpl.
  - constructor.
  - destruct (f x) eqn:E.
    + apply select_keep; [by apply Hf | done].
    + apply select_drop; [|done]. rewrite <- Hf. congruence.
Qed.

(** The selected subsequence is unique: the relation defines a function. *)
Lemma select_where_unique {A} (P : A -> Prop) (l l1 l2 : list A) :
  select_where P l l1 -> select_where P l l2 -> l1 = l2.
Proof.
  intros H1. revert l2.
  induction H1 as [|x l l1 Hx _ IH|x l l1 Hx _ IH]; intros l2 H2;
    inversion H2; subst; try done.
  - f_equal. by apply IH.
  - by apply IH.
Qed.

Lemma select_where_sublist {A} (P : A -> Prop) (l l' : list A) :
  select_where P l l' -> sublist l' l.
Proof. induction 1; by constructor. Qed.

Lemma select_where_elem_of {A} (P : A -> Prop) (l l' : list A) (x : A) :
  select_where P l l' -> x ∈ l' <-> x ∈ l /\ P x.
Proof.
  induction 1 as [|y l l' Hy _ IH|y l l' Hy _ IH].
  - split; [intros H; inversion H | intros [H _]; inversion H].
  - rewrite !elem_of_cons, IH. split.
    + intros [->|[? ?]]; auto.
    + intros [[->|?] ?]; auto.
  - rewrite elem_of_cons, IH. split.
    + intros [? ?]; auto.
    + intros [[->|?] ?]; [contradiction | auto].
Qed.

(** ** The filter *)

Lemma select_where_filter_on {A} (P : A -> Prop) (f : A -> bool) (l : list A) :
  Forall (fun x => f x = true <-> P x) l -> select_where P l (List.filter f l).
Proof.
  induction 1 as [|x l Hx _ IH]; simpl.
  - constructor.
  - destruct (f x) eqn:E.
    + apply select_keep; [by apply Hx | done].
    + apply select_drop; [|done]. rewrite <- Hx. congruence.
Qed.

(** *** Basic Latin text *)

(** On Basic Latin text the modelled built-in lower-cases letter by letter. *)
Lemma lower_from_latin (after_cased : bool) (s : string) :
  is_latin_text s = true -> lower_from after_cased s = map_string lower_unit s.
Proof.
  revert after_cased. induction s as [|c s IH]; intros after_cased Hs; [done|].
  simpl in Hs. apply andb_true_iff in Hs as [Hc Hs]. apply Nat.ltb_lt in Hc.
  cbn [lower_from map_string]. cbv zeta. destruct s as [|d s']; [done|].
  assert ((nat_of_ascii c =? 206)%nat = false) as E206 by (apply Nat.eqb_neq; lia).
  assert ((nat_of_ascii c =? 207)%nat = false) as E207 by (apply Nat.eqb_neq; lia).
  unfold is_greek_letter. rewrite E206, E207. cbn [andb orb].
  f_equal. by apply IH.
Qed.

Lemma toLowerCase_latin (s : string) :
  is_latin_text s = true -> toLowerCase s = map_string lower_unit s.
Proof. apply lower_from_latin. Qed.

Lemma map_string_append (f : ascii -> ascii) (a b : string) :
  map_string f (a +:+ b) = (map_string f a +:+ map_string f b)%string.
Proof.
  induction a as [|x a IH]; [reflexivity|].
  change (String (f x) (map_string f (a +:+ b))
          = String (f x) (map_string f a +:+ map_string f b))%string.
  by f_equal.
Qed.

Lemma map_string_append_inv (f : ascii -> ascii) (s x y : string) :
  map_string f s = (x +:+ y)%string ->
  exists s1 s2, s = (s1 +:+ s2)%string /\ map_string f s1 = x /\ map_string f s2 = y.
Proof.
  revert s. induction x as [|c x IH]; intros s Hs.
  - by exists EmptyString, s.
  - destruct s as [|d s]; [discriminate|].
    change (String (f d) (map_string f s) = String c (x +:+ y))%string in Hs.
    injection Hs as Hd Hs. destruct (IH s Hs) as (s1 & s2 & -> & H1 & H2).
    exists (String d s1), s2. repeat split; [|done]. simpl. by rewrite Hd, H1.
Qed.

(** The alphabet's notion of "same letter" is what [lower_unit] decides,
    checked on all 256 x 256 pairs of bytes. *)
Lemma same_letter_table :
  forallb (fun n => forallb (fun m =>
     Bool.eqb (same_letter (ascii_of_nat n) (ascii_of_nat m))
              (bool_decide (lower_unit (ascii_of_nat n) = lower_unit (ascii_of_nat m))))
     (seq 0 256)) (seq 0 256) = true.
Proof. vm_compute. reflexivity. Qed.

Lemma same_letter_lower (c d : ascii) :
  same_letter c d = true <-> lower_unit c = lower_unit d.
Proof.
  pose proof same_letter_table as H.
  rewrite forallb_forall in H.
  specialize (H (nat_of_ascii c)). rewrite in_seq in H.
  pose proof (nat_ascii_bounded c) as Hc. pose proof (nat_ascii_bounded d) as Hd.
  assert (0 <= nat_of_ascii c < 0 + 256)%nat as Hc' by lia.
  specialize (H Hc'). rewrite forallb_forall in H.
  specialize (H (nat_of_ascii d)). rewrite in_seq in H.
  assert (0 <= nat_of_ascii d < 0 + 256)%nat as Hd' by lia.
  specialize (H Hd'). rewrite !ascii_nat_embedding in H.
  apply Bool.eqb_prop in H. rewrite H. apply bool_decide_eq_true.
Qed.

Lemma same_text_lower (a b : string) :
  same_text a b = true <-> map_string lower_unit a = map_string lower_unit b.
Proof.
  revert b. induction a as [|c a IH]; intros [|d b]; simpl; try done.
  rewrite andb_true_iff, same_letter_lower, IH. split.
  - intros [-> ->]. done.
  - intros [= H1 H2]. done.
Qed.

(** On Basic Latin text, what the filter tests is containment up to case. *)
Lemma includes_latin (s q : string) :
  is_latin_text s = true -> is_latin_text q = true ->
  includes (toLowerCase s) (toLowerCase q) = true <-> contains_ignoring_latin_case s q.
Proof.
  intros Hs Hq. rewrite (toLowerCase_latin s Hs), (toLowerCase_latin q Hq).
  rewrite includes_spec. split.
  - intros (x & y & H).
    apply map_string_append_inv in H as (s1 & s23 & -> & _ & H).
    apply map_string_append_inv in H as (part & s3 & -> & Hpart & _).
    exists part. split; [by exists s1, s3 | by apply same_text_lower].
  - intros (part & (s1 & s3 & ->) & Hpart). apply same_text_lower in Hpart.
    exists (map_string lower_unit s1), (map_string lower_unit s3).
    by rewrite !map_string_append, Hpart.
Qed.

(** C1, as amended. For every item list [L] and query [q]: with the empty
    query the filtered list is [L] itself, in its order; with any other
    query it is exactly the items of [L] whose lower-cased name contains
    the lower-cased query as a substring, whatever the built-in
    lower-casing does, kept in the order they have in [L]; and when the
    query and the names are Basic Latin text, these are exactly the items
    whose name contains the query as a case-insensitive substring. *)
Theorem filteredItemsWith_spec (lower : string -> string)
    (L : list CommandItem) (q : string) :
  (q = EmptyString -> filteredItemsWith lower L q = L) /\
  (q <> EmptyString ->
   select_where (fun item => lowered_contains lower (name item) q) L
     (filteredItemsWith lower L q)) /\
  (q <> EmptyString ->
   is_latin_text q = true ->
   Forall (fun item => is_latin_text (name item) = true) L ->
   select_where (fun item => contains_ignoring_latin_case (name item) q) L
     (filteredItems L q)).
Proof.
  unfold filteredItems, filteredItemsWith. split; [|split].
  - intros ->. done.
  - intros Hq. destruct (Z.of_nat (String.length q) <=? 0) eqn:E.
    + by apply length_nonpositive in E.
    + apply select_where_filter. intros item. apply includes_substring_of.
  - intros Hq Hlatin HL. destruct (Z.of_nat (String.length q) <=? 0) eqn:E.
    + by apply length_nonpositive in E.
    + apply select_where_filter_on.
      eapply Forall_impl; [exact HL|]. intros item Hitem. cbv beta.
      by apply includes_latin.
Qed.

(** In the scenario, the query "FOLD" lists "Open Folder" alone. *)
Example filter_latin_case :
  filteredItems scenario "FOLD" = [mkItem 1 "b" "Open Folder"] /\
  contains_ignoring_latin_case "Open Folder" "FOLD" /\
  ~ contains_ignoring_latin_case "Save" "FOLD".
Proof.
  split; [reflexivity|]. split.
  - apply (includes_latin "Open Folder" "FOLD"); reflexivity.
  - intros H. apply (includes_latin "Save" "FOLD") in H; [discriminate | reflexivity..].
Qed.

(** C1, as stated, fails on a name that contains the query letter for
    letter.  The name is omicron, sigma in Greek capitals (CE 9F CE A3) and
    the query is the capital sigma alone: lower-casing the name gives the
    final form of sigma (CF 82), lower-casing the query gives the other
    form (CF 83), so the item is not listed. *)
Lemma filter_final_sigma_counterexample :
  let L := [mkItem 0 "k" "ΟΣ"] in
  let q := "Σ"%string in
  q <> EmptyString /\
  substring_of q "ΟΣ" /\
  contains_ignoring_case "ΟΣ" q /\
  toLowerCase "ΟΣ" = "ος"%string /\
  toLowerCase q = "σ"%string /\
  filteredItems L q = [] /\
  ~ select_where (fun item => contains_ignoring_case (name item) q) L
      (filteredItems L q).
Proof.
  cbv zeta.
  assert (substring_of "Σ" "ΟΣ") as Hsub.
  { exists "Ο"%string, EmptyString. reflexivity. }
  assert (contains_ignoring_case "ΟΣ" "Σ") as Hci.
  { exists "Σ"%string. split; [exact Hsub | reflexivity]. }
  repeat split; try reflexivity; try done.
  intros Hsel. inversion Hsel; subst. contradiction.
Qed.

(** X2. Two queries that differ only in the case of their letters give
    the same filtered list. *)
Lemma filteredItems_case_insensitive (L : list CommandItem) (q q' : string) :
  toLowerCase q = toLowerCase q' -> filteredItems L q = filteredItems L q'.
Proof.
  intros H. unfold filteredItems, filteredItemsWith.
  destruct (Z.of_nat (String.length q) <=? 0) eqn:E;
    destruct (Z.of_nat (String.length q') <=? 0) eqn:E'.
  - done.
  - apply length_nonpositive in E. subst q. symmetry in H. simpl in H.
    apply (proj1 (toLowerCase_empty q')) in H. by subst q'.
  - apply length_nonpositive in E'. subst q'. simpl in H.
    apply (proj1 (toLowerCase_empty q)) in H. by subst q.
  - by rewrite H.
Qed.

(** X1. Filtering a filtered list again by the same query changes nothing. *)
Lemma filteredItems_idempotent (L : list CommandItem) (q : string) :
  filteredItems (filteredItems L q) q = filteredItems L q.
Proof.
  unfold filteredItems, filteredItemsWith. destruct (Z.of_nat (String.length q) <=? 0); [done|].
  induction L as [|x L IH]; simpl; [done|].
  destruct (includes _ _) eqn:E; simpl; [rewrite E|]; by rewrite ?IH.
Qed.

Lemma filteredItems_subseteq (L : list CommandItem) (q : string) :
  filteredItems L q ⊆ L.
Proof.
  unfold filteredItems, filteredItemsWith. destruct (_ <=? _); [done|].
  intros x. rewrite list_elem_of_In, filter_In, <- list_elem_of_In. tauto.
Qed.

Lemma indexOf_from_found {A} `{EqDecision A} (arr : list A) (x : A) (i : Z) (n : nat) :
  arr !! n = Some x ->
  (forall j, (j < n)%nat -> arr !! j <> Some x) ->
  indexOf_from arr x i = i + Z.of_nat n.
Proof.
  revert i n. induction arr as [|y arr IH]; intros i n Hn Hfirst; [done|].
  simpl. destruct (decide (y = x)) as [->|Hne].
  - destruct n as [|n]; [lia|]. exfalso. apply (Hfirst 0%nat); [lia | done].
  - destruct n as [|n]; simpl in Hn; [congruence|].
    rewrite (IH (i + 1) n Hn); [lia|].
    intros j Hj. apply (Hfirst (S j)). lia.
Qed.

Lemma indexOf_from_not_found {A} `{EqDecision A} (arr : list A) (x : A) (i : Z) :
  x ∉ arr -> indexOf_from arr x i = -1.
Proof.
  revert i. induction arr as [|y arr IH]; intros i Hx; [done|].
  simpl. rewrite not_elem_of_cons in Hx. destruct Hx as [Hne Hx].
  destruct (decide (y = x)); [congruence | by apply IH].
Qed.

Lemma at_index_lookup {A} (arr : list A) (i : Z) :
  0 <= i -> at_index arr i = arr !! Z.to_nat i.
Proof. intros Hi. unfold at_index. destruct (i <? 0) eqn:E; [lia | done]. Qed.

Lemma at_index_negative {A} (arr : list A) (i : Z) :
  i < 0 -> at_index arr i = None.
Proof. intros Hi. unfold at_index. destruct (i <? 0) eqn:E; [done | lia]. Qed.

Lemma at_index_last {A} (arr : list A) :
  at_index arr (Z.of_nat (length arr) - 1) = last arr.
Proof.
  rewrite last_lookup. destruct arr as [|x arr]; [done|].
  rewrite at_index_lookup by (simpl; lia). f_equal. simpl. lia.
Qed.

(** ** The key-to-item map *)

Lemma itemMap_snoc (its : list CommandItem) (item : CommandItem) :
  itemMap (its ++ [item]) = <[key item := item]> (itemMap its).
Proof. unfold itemMap. by rewrite foldl_snoc. Qed.

(** Whatever the map holds under [k] is an item of the list with key [k]. *)
Lemma itemMap_lookup_Some (its : list CommandItem) (k : string) (item : CommandItem) :
  itemMap its !! k = Some item -> item ∈ its /\ key item = k.
Proof.
  induction its as [|x its IH] using rev_ind; [done|].
  rewrite itemMap_snoc, lookup_insert. case_decide as Hk.
  - intros [= <-]. split; [|done]. apply elem_of_app. right. by left.
  - intros H. destruct (IH H) as [Hin Hkey]. split; [|done].
    apply elem_of_app. by left.
Qed.

(** Every key of the list is in the map. *)
Lemma itemMap_lookup_key (its : list CommandItem) (k : string) :
  k ∈ key <$> its -> is_Some (itemMap its !! k).
Proof.
  induction its as [|x its IH] using rev_ind.
  - intros H. inversion H.
  - rewrite fmap_app, elem_of_app, itemMap_snoc, lookup_insert.
    intros Hin. case_decide as Hk; [by eexists|].
    destruct Hin as [Hin|Hin]; [by apply IH|].
    simpl in Hin. apply list_elem_of_singleton in Hin. congruence.
Qed.

(** With unique keys the map resolves a key to the one item that has it. *)
Lemma itemMap_lookup_unique (its : list CommandItem) (item : CommandItem) :
  NoDup (key <$> its) -> item ∈ its -> itemMap its !! key item = Some item.
Proof.
  intros Hnd Hin.
  destruct (itemMap_lookup_key its (key item)) as [item' Hitem'].
  { apply list_elem_of_fmap. by exists item. }
  rewrite Hitem'. f_equal.
  apply itemMap_lookup_Some in Hitem' as [Hin' Hkey].
  apply list_elem_of_lookup in Hin as [i Hi].
  apply list_elem_of_lookup in Hin' as [j Hj].
  assert (i = j) as ->; [|congruence].
  apply (NoDup_lookup _ i j (key item) Hnd); rewrite list_lookup_fmap.
  - by rewrite Hi.
  - rewrite Hj. simpl. by rewrite Hkey.
Qed.

(** ** Navigation *)

Lemma key_index_Some (fi : list CommandItem) (k : string) (i : nat) :
  key_index fi k = Some i ->
  exists item, fi !! i = Some item /\ key item = k /\
    forall j other, fi !! j = Some other -> (j < i)%nat -> key other <> k.
Proof.
  unfold key_index. destruct (list_find _ fi) as [[i' item]|] eqn:E; [|done].
  intros [= <-]. apply list_find_Some in E as (Hi & Hk & Hfirst).
  exists item. eauto.
Qed.

Lemma key_index_None (fi : list CommandItem) (k : string) :
  key_index fi k = None -> forall item, item ∈ fi -> key item <> k.
Proof.
  unfold key_index. destruct (list_find _ fi) as [[i' item]|] eqn:E; [done|].
  intros _ item Hin. apply list_find_None in E.
  by apply (proj1 (Forall_forall _ _) E).
Qed.

Lemma key_index_lt (fi : list CommandItem) (k : string) (i : nat) :
  key_index fi k = Some i -> (i < length fi)%nat.
Proof.
  intros H. apply key_index_Some in H as (item & Hi & _).
  by apply lookup_lt_Some in Hi.
Qed.

Lemma focus_index_range (fi : list CommandItem) (sel : option string) :
  fi <> [] -> -1 <= focus_index fi sel < Z.of_nat (length fi).
Proof.
  intros Hne. assert (0 < length fi)%nat by (destruct fi; [done | simpl; lia]).
  unfold focus_index. destruct sel as [k|]; [|lia].
  destruct (key_index fi k) as [i|] eqn:E; [|lia].
  apply key_index_lt in E. lia.
Qed.

(** On uniquely keyed items, the index [moveFocus] computes through
    [itemMap] and [indexOf] is the position of the selected key. *)
Lemma selectedIndex_focus_index (st : Container.State) :
  NoDup (key <$> items st) ->
  match selected st with
  | Some k => indexOf (filtered st) (itemMap (items st) !! k)
  | None => 0
  end = focus_index (filtered st) (selected st).
Proof.
  intros Hnd. unfold focus_index. destruct (selected st) as [k|]; [|done].
  destruct (key_index (filtered st) k) as [i|] eqn:E.
  - apply key_index_Some in E as (item & Hi & Hk & Hfirst).
    assert (item ∈ items st) as Hin.
    { apply (filteredItems_subseteq _ (predicate st)).
      apply list_elem_of_lookup. by exists i. }
    rewrite <- Hk, (itemMap_lookup_unique _ _ Hnd Hin). simpl.
    rewrite (indexOf_from_found _ _ 0 i Hi); [lia|].
    intros j Hj Hitem. by apply (Hfirst j item).
  - destruct (itemMap (items st) !! k) as [item|] eqn:Hm; [|done].
    apply itemMap_lookup_Some in Hm as [_ Hk]. simpl.
    apply indexOf_from_not_found. intros Hin.
    by apply (key_index_None _ _ E item).
Qed.

Lemma filtered_nonempty_length (st : Container.State) :
  filtered st <> [] -> (Z.of_nat (length (filtered st)) <=? 0) = false.
Proof. intros H. destruct (filtered st); [done|]. apply Z.leb_gt. simpl. lia. Qed.

(** C2, as amended. On uniquely keyed items, [moveFocus] leaves the state
    alone when the filtered list is empty. Otherwise take the index of
    Selection in the filtered list, counting an absent Selection as index
    0 and a Selection that is the key of no filtered item as index -1:
    "next" sets Selection to the key at [(index+1) mod n], and "previous"
    sets it to the key at [index-1], or to the last element's key when
    [index-1] is out of range. *)
Theorem moveFocus_spec (st : Container.State) :
  NoDup (key <$> items st) ->
  let fi := filtered st in
  let n := Z.of_nat (length fi) in
  let i := focus_index fi (selected st) in
  (fi = [] -> forall e, step st (KeyDown e) = st) /\
  (fi <> [] ->
   step st (KeyDown ArrowDown) =
     Container.mkState (items st) (predicate st)
       (key <$> fi !! Z.to_nat ((i + 1) mod n)) /\
   step st (KeyDown ArrowUp) =
     Container.mkState (items st) (predicate st)
       (if decide (1 <= i) then key <$> fi !! Z.to_nat (i - 1)
        else key <$> last fi)).
Proof.
  intros Hnd fi n i. split.
  - intros Hfi e. unfold step, moveFocus. cbv zeta. fold fi. rewrite Hfi. simpl.
    unfold commit. by rewrite bool_decide_true.
  - intros Hfi.
    pose proof (focus_index_range fi (selected st) Hfi) as Hi. fold i n in Hi.
    pose proof (filtered_nonempty_length st Hfi) as Hlen.
    assert (0 < n) as Hn by (by apply Z.leb_gt in Hlen).
    pose proof (selectedIndex_focus_index st Hnd) as Hidx.
    unfold step, moveFocus. cbv zeta. rewrite Hlen, Hidx. fold fi i n. split.
    + rewrite Z.rem_mod_nonneg by lia.
      assert (0 <= (i + 1) mod n < n) as Hm by (apply Z.mod_pos_bound; lia).
      rewrite at_index_lookup by lia.
      destruct (fi !! Z.to_nat ((i + 1) mod n)) as [item|] eqn:E.
      * simpl. unfold commit. by rewrite bool_decide_true.
      * apply lookup_ge_None in E. lia.
    + destruct (decide (1 <= i)) as [Hpos|Hneg].
      * rewrite at_index_lookup by lia.
        destruct (fi !! Z.to_nat (i - 1)) as [item|] eqn:E.
        -- simpl. unfold commit. by rewrite bool_decide_true.
        -- apply lookup_ge_None in E. lia.
      * rewrite at_index_negative by lia. unfold n. rewrite at_index_last.
        simpl. unfold commit. by rewrite bool_decide_true.
Qed.

Lemma scenario_keys_unique : NoDup (key <$> scenario).
Proof. apply (bool_decide_unpack _). vm_compute. exact I. Defined.

(** With the query "open" and Selection "b" (index 1 of the two filtered
    items), "next" wraps to "a" and "previous" moves to "a". *)
Lemma moveFocus_spec_witness :
  NoDup (key <$> scenario) /\
  step (Container.mkState scenario "open" (Some "b"%string)) (KeyDown ArrowDown)
    = Container.mkState scenario "open" (Some "a"%string) /\
  step (Container.mkState scenario "open" (Some "b"%string)) (KeyDown ArrowUp)
    = Container.mkState scenario "open" (Some "a"%string).
Proof.
  split; [exact scenario_keys_unique|].
  refine (proj2 (moveFocus_spec
                   (Container.mkState scenario "open" (Some "b"%string))
                   scenario_keys_unique) _).
  vm_compute. discriminate.
Defined.

(** C2, as stated, fails where Selection is the key of no filtered item:
    the query "open" keeps items "a" and "b", Selection is "c". The
    specification's reading takes index 0 and moves "next" to index 1, key
    "b"; [moveFocus] gets [-1] from [indexOf] and moves to index 0, key "a". *)
Lemma moveFocus_not_found_counterexample :
  let st := Container.mkState scenario "open" (Some "c"%string) in
  NoDup (key <$> items st) /\
  (key <$> filtered st) = ["a"; "b"]%string /\
  spec_moveSelection Next (filtered st) (selected st) = Some "b"%string /\
  selected (step st (KeyDown (direction_key Next))) = Some "a"%string /\
  selected (step st (KeyDown (direction_key Next)))
    <> spec_moveSelection Next (filtered st) (selected st).
Proof.
  cbv zeta. split; [exact scenario_keys_unique|].
  repeat split; try (vm_compute; reflexivity).
  vm_compute. discriminate.
Qed.

(** ** What the operations touch *)

Lemma at_index_elem_of {A} (arr : list A) (i : Z) (x : A) :
  at_index arr i = Some x -> x ∈ arr.
Proof.
  unfold at_index. destruct (i <? 0); [done|].
  intros H. apply list_elem_of_lookup. eauto.
Qed.

Lemma first_key_elem_of (fi : list CommandItem) (k : string) :
  first_key fi = Some k -> k ∈ key <$> fi.
Proof.
  unfold first_key. destruct (at_index fi 0) as [item|] eqn:E; [|done].
  intros [= <-]. apply list_elem_of_fmap. exists item. split; [done|].
  by apply at_index_elem_of in E.
Qed.

Lemma indexOf_from_range {A} `{EqDecision A} (arr : list A) (x : A) (i : Z) :
  indexOf_from arr x i = -1 \/
  i <= indexOf_from arr x i < i + Z.of_nat (length arr).
Proof.
  revert i. induction arr as [|y arr IH]; intros i; [by left|].
  simpl. destruct (decide (y = x)); [right; lia|].
  destruct (IH (i + 1)) as [->|Hr]; [by left | right; lia].
Qed.

(** X7. [moveFocus] never reads a property of [undefined], in any state
    (stale Selection and repeated keys included): the index it computes
    for "next" is always inside the filtered list. *)
Lemma moveFocus_returns (st : Container.State) (e : KeyName) :
  exists acts, moveFocus st e = Ok acts.
Proof.
  unfold moveFocus. cbv zeta.
  destruct (Z.of_nat (length (filtered st)) <=? 0) eqn:Hlen; [by eexists|].
  apply Z.leb_gt in Hlen.
  destruct e; [|by eexists..].
  set (i := match selected st with Some _ => _ | None => _ end).
  assert (-1 <= i < Z.of_nat (length (filtered st))) as Hi.
  { subst i. destruct (selected st) as [k|]; [|lia].
    destruct (itemMap (items st) !! k) as [item|]; simpl; [|lia].
    destruct (indexOf_from_range (filtered st) item 0) as [->|Hr]; lia. }
  rewrite Z.rem_mod_nonneg by lia.
  assert (0 <= (i + 1) mod Z.of_nat (length (filtered st))
          < Z.of_nat (length (filtered st))) as Hm by (apply Z.mod_pos_bound; lia).
  rewrite at_index_lookup by lia.
  destruct (filtered st !! _) as [item|] eqn:E; [by eexists|].
  apply lookup_ge_None in E. lia.
Qed.

(** [moveFocus] issues nothing, or one [setSelected] with the key of a
    filtered item. *)
Lemma moveFocus_cases (st : Container.State) (e : KeyName) :
  updates (moveFocus st e) = [] \/
  exists k, updates (moveFocus st e) = [SetSelected (Some k)] /\
            k ∈ key <$> filtered st.
Proof.
  unfold moveFocus. cbv zeta.
  destruct (Z.of_nat (length (filtered st)) <=? 0) eqn:Hlen; [by left|].
  set (i := match selected st with Some _ => _ | None => _ end).
  destruct e; [| |by left].
  - destruct (at_index _ _) as [item|] eqn:E; [|by left].
    right. exists (key item). split; [done|].
    apply list_elem_of_fmap. exists item. split; [done|].
    by apply at_index_elem_of in E.
  - right. simpl.
    destruct (at_index (filtered st) (i - 1)) as [item|] eqn:E; simpl.
    + exists (key item). split; [done|].
      apply list_elem_of_fmap. exists item. split; [done|].
      by apply at_index_elem_of in E.
    + rewrite at_index_last. apply Z.leb_gt in Hlen.
      destruct (last (filtered st)) as [item|] eqn:El.
      * exists (key item). split; [done|].
        apply list_elem_of_fmap. exists item. split; [done|].
        rewrite last_lookup in El. apply list_elem_of_lookup. eauto.
      * apply last_None in El. rewrite El in Hlen. simpl in Hlen. lia.
Qed.

Lemma acceptCommand_updates (st : Container.State) :
  applyAll st (updates (acceptCommand st)) = st.
Proof.
  unfold acceptCommand. destruct (selected st) as [k|]; [|done].
  by destruct (itemMap (items st) !! k).
Qed.

Lemma commit_same_predicate (old new : Container.State) :
  predicate old = predicate new -> commit false old new = new.
Proof. intros H. unfold commit. by rewrite bool_decide_true. Qed.

Lemma step_KeyDown (st : Container.State) (e : KeyName) :
  step st (KeyDown e) = st \/
  exists k, step st (KeyDown e)
              = Container.mkState (items st) (predicate st) (Some k) /\
            k ∈ key <$> filtered st.
Proof.
  unfold step. destruct (moveFocus_cases st e) as [H|(k & H & Hk)]; rewrite H.
  - left. by apply commit_same_predicate.
  - right. exists k. split; [|done]. by apply commit_same_predicate.
Qed.

Lemma step_Enter (st : Container.State) : step st Enter = st.
Proof.
  unfold step. rewrite acceptCommand_updates. by apply commit_same_predicate.
Qed.

Lemma step_Input (st : Container.State) (value : string) :
  step st (Input value) =
    if bool_decide (predicate st = value) then st
    else Container.mkState (items st) value
           (first_key (filteredItems (items st) value)).
Proof.
  unfold step, commit, onInput. simpl.
  case_bool_decide as H; simpl; [|done]. subst value. by destruct st.
Qed.

Lemma step_ItemsChanged (st : Container.State) (its : list CommandItem) :
  step st (ItemsChanged its) =
    Container.mkState its (predicate st) (first_key (filteredItems its (predicate st))).
Proof. done. Qed.

Lemma step_Recompute (st : Container.State) :
  step st Recompute =
    Container.mkState (items st) (predicate st) (first_key (filtered st)).
Proof. done. Qed.

(** ** Selection follows the filter *)

(** C3. Whenever an operation changes the filtered list, Selection becomes
    the key of the first element of the new filtered list, or absent when
    that list is empty, whatever Selection was before. *)
Theorem selection_recomputed (st : Container.State) (op : Op) :
  filtered (step st op) <> filtered st ->
  selected (step st op) = first_key (filtered (step st op)).
Proof.
  destruct op as [value|e| | |its].
  - rewrite step_Input. case_bool_decide; [done|]. by intros _.
  - destruct (step_KeyDown st e) as [->|(k & -> & _)]; [done|].
    intros H. by destruct H.
  - rewrite step_Enter. done.
  - by rewrite step_Recompute.
  - by rewrite step_ItemsChanged.
Qed.

(** From "open" (items "a", "b") with "b" selected, the query "e" keeps
    all three items, "b" among them, and Selection still moves to the
    first, "a". *)
Lemma selection_recomputed_witness :
  let st := Container.mkState scenario "open" (Some "b"%string) in
  filtered (step st (Input "e")) <> filtered st /\
  "b"%string ∈ key <$> filtered (step st (Input "e")) /\
  selected (step st (Input "e")) = Some "a"%string.
Proof.
  cbv zeta.
  assert (filtered (step (Container.mkState scenario "open" (Some "b"%string)) (Input "e"))
          <> filtered (Container.mkState scenario "open" (Some "b"%string))) as Hne.
  { vm_compute. discriminate. }
  split; [exact Hne|]. split.
  - apply (bool_decide_unpack _). vm_compute. exact I.
  - exact (selection_recomputed _ _ Hne).
Defined.

(** ** The selection invariant *)

Lemma init_eq (its : list CommandItem) :
  init its = Container.mkState its EmptyString (first_key its).
Proof. done. Qed.

Lemma selection_valid_first (its : list CommandItem) (q : string) :
  selection_valid (Container.mkState its q (first_key (filteredItems its q))).
Proof. intros k. simpl. apply first_key_elem_of. Qed.

Lemma selection_valid_init (its : list CommandItem) : selection_valid (init its).
Proof. rewrite init_eq. apply (selection_valid_first its EmptyString). Qed.

Lemma selection_valid_step (st : Container.State) (op : Op) :
  selection_valid st -> selection_valid (step st op).
Proof.
  intros Hst. destruct op as [value|e| | |its].
  - rewrite step_Input. case_bool_decide; [done|]. apply selection_valid_first.
  - destruct (step_KeyDown st e) as [->|(k & -> & Hk)]; [done|].
    intros k' [= <-]. exact Hk.
  - by rewrite step_Enter.
  - rewrite step_Recompute. apply selection_valid_first.
  - rewrite step_ItemsChanged. apply selection_valid_first.
Qed.

Lemma selection_valid_run (st : Container.State) (ops : list Op) :
  selection_valid st -> selection_valid (run st ops).
Proof.
  revert st. induction ops as [|op ops IH]; intros st Hst; [done|].
  simpl. apply IH. by apply selection_valid_step.
Qed.

(** C4. In every state reached from the freshly opened container by any
    sequence of operations (typing a query, moving the selection, the
    recompute effect, accepting, a new item list), a present Selection is
    the key of an element of the current filtered list. *)
Theorem selection_in_filtered (its : list CommandItem) (ops : list Op) (k : string) :
  selected (run (init its) ops) = Some k ->
  k ∈ key <$> filtered (run (init its) ops).
Proof. apply selection_valid_run, selection_valid_init. Qed.

Lemma selection_in_filtered_witness :
  selected (run (init scenario) [Input "open"; KeyDown ArrowDown; Input "save"])
    = Some "c"%string /\
  "c"%string ∈ key <$> filtered (run (init scenario)
                          [Input "open"; KeyDown ArrowDown; Input "save"]).
Proof.
  assert (selected (run (init scenario) [Input "open"; KeyDown ArrowDown; Input "save"])
          = Some "c"%string) as H by (vm_compute; reflexivity).
  split; [exact H|]. exact (selection_in_filtered _ _ _ H).
Defined.

(** ** A new item list *)

(** C5, as stated, fails: after typing "open", a new item list leaves the
    query "open" in place. *)
Lemma query_kept_counterexample :
  predicate (run (init scenario)
               [Input "open"; ItemsChanged [mkItem 3 "d" "Open Recent"]])
    = "open"%string /\
  predicate (run (init scenario)
               [Input "open"; ItemsChanged [mkItem 3 "d" "Open Recent"]])
    <> EmptyString.
Proof. split; [vm_compute; reflexivity | vm_compute; discriminate]. Qed.

(** C5, as amended. When the caller passes another item list, Query keeps
    its value; the filtered list is recomputed from the new items with
    that query and Selection becomes the key of its first element, or
    absent when it is empty. *)
Theorem items_changed_keeps_query (st : Container.State) (its : list CommandItem) :
  predicate (step st (ItemsChanged its)) = predicate st /\
  items (step st (ItemsChanged its)) = its /\
  filtered (step st (ItemsChanged its)) = filteredItems its (predicate st) /\
  selected (step st (ItemsChanged its)) = first_key (filteredItems its (predicate st)).
Proof. by rewrite step_ItemsChanged. Qed.

(** ** Acceptance *)

(** In a state whose Selection refers to a filtered item, the map lookup of
    [acceptCommand] succeeds. *)
Lemma selection_valid_lookup (st : Container.State) (k : string) :
  selection_valid st -> selected st = Some k ->
  exists item, itemMap (items st) !! k = Some item /\ item ∈ items st /\ key item = k.
Proof.
  intros Hst Hk. destruct (itemMap_lookup_key (items st) k) as [item Hitem].
  - apply Hst in Hk. apply list_elem_of_fmap in Hk as (x & -> & Hx).
    apply list_elem_of_fmap. exists x. split; [done|].
    by apply (filteredItems_subseteq _ (predicate st)).
  - exists item. split; [done|]. by apply itemMap_lookup_Some.
Qed.

(** C7. In every reachable state, [acceptCommand] reports an item exactly
    when Selection is present: with Selection absent it does nothing and
    throws nothing; with Selection [k] it alerts the name of an item of
    the caller's list whose key is [k], the one [itemMap] holds for [k]. *)
Theorem acceptCommand_spec (its : list CommandItem) (ops : list Op) :
  let st := run (init its) ops in
  (selected st = None -> acceptCommand st = Ok [] /\ alerts st Enter = []) /\
  (forall k, selected st = Some k ->
     exists item, item ∈ items st /\ key item = k /\
       itemMap (items st) !! k = Some item /\
       acceptCommand st = Ok [Alert (name item)] /\
       alerts st Enter = [name item]).
Proof.
  intros st. split.
  - intros H. unfold alerts, acceptCommand. by rewrite H.
  - intros k Hk.
    destruct (selection_valid_lookup st k) as (item & Hm & Hin & Hkey);
      [apply selection_valid_run, selection_valid_init | done |].
    exists item. unfold alerts, acceptCommand. by rewrite Hk, Hm.
Qed.

(** C9. On uniquely keyed items, in every reachable state a present
    Selection is the key of exactly one item of the caller's list, the
    key-to-item map resolves it to that item, and [acceptCommand] does
    not throw. *)
Theorem accept_lookup_defined (its : list CommandItem) (ops : list Op) (k : string) :
  let st := run (init its) ops in
  NoDup (key <$> items st) ->
  selected st = Some k ->
  exists item,
    item ∈ items st /\ key item = k /\
    (forall other, other ∈ items st -> key other = k -> other = item) /\
    itemMap (items st) !! k = Some item /\
    acceptCommand st = Ok [Alert (name item)].
Proof.
  intros st Hnd Hk.
  destruct (selection_valid_lookup st k) as (item & Hm & Hin & Hkey);
    [apply selection_valid_run, selection_valid_init | done |].
  exists item. repeat split; try done.
  - intros other Hother Hko.
    pose proof (itemMap_lookup_unique _ _ Hnd Hother) as Ho.
    rewrite Hko, Hm in Ho. congruence.
  - unfold acceptCommand. by rewrite Hk, Hm.
Qed.

Lemma accept_lookup_defined_witness :
  let st := run (init scenario) [Input "save"] in
  NoDup (key <$> items st) /\
  selected st = Some "c"%string /\
  exists item,
    item ∈ items st /\ key item = "c"%string /\
    (forall other, other ∈ items st -> key other = "c"%string -> other = item) /\
    itemMap (items st) !! "c"%string = Some item /\
    acceptCommand st = Ok [Alert (name item)].
Proof.
  cbv zeta.
  assert (selected (run (init scenario) [Input "save"]) = Some "c"%string) as H
    by (vm_compute; reflexivity).
  split; [exact scenario_keys_unique|]. split; [exact H|].
  exact (accept_lookup_defined scenario [Input "save"] "c" scenario_keys_unique H).
Defined.

(** ** The palette: acceptance, closing, the scroll lock *)

(** C10. Accepting changes no palette state: Visibility, Query, the
    filtered list and Selection are after [enter] what they were before;
    in particular an open palette stays open. *)
Theorem accept_changes_nothing (p : Palette.State) :
  let p' := Palette.step p Palette.EnterKey in
  Palette.open p' = Palette.open p /\
  predicate <$> Palette.container p' = predicate <$> Palette.container p /\
  filtered <$> Palette.container p' = filtered <$> Palette.container p /\
  selected <$> Palette.container p' = selected <$> Palette.container p /\
  p' = p.
Proof.
  assert (Palette.step p Palette.EnterKey = p) as ->; [|done].
  unfold Palette.step, Palette.child. destruct p as [m o its c ov].
  destruct m; [|done]. destruct c as [c|]; [|done].
  cbn -[step]. by rewrite step_Enter.
Qed.

Lemma scroll_tracks_open_mount (its : list CommandItem) (host : string) :
  scroll_tracks_open (Palette.mount its host).
Proof.
  repeat split; simpl; try done.
Qed.

Lemma scroll_tracks_open_step (p : Palette.State) (ev : Palette.Event) :
  ev <> Palette.Unmount ->
  scroll_tracks_open p -> scroll_tracks_open (Palette.step p ev).
Proof.
  intros Hev (Hm & Hov & Hc). destruct p as [m o its c ov]. simpl in *. subst m ov.
  unfold Palette.step. cbn [Palette.mounted negb].
  destruct ev; try done;
    try (repeat split; simpl; try done; rewrite fmap_is_Some; exact Hc).
  - destruct o; repeat split; simpl; try done; intros _; by eexists.
  - destruct c as [c|]; [destruct o|]; repeat split; simpl; try done.
  - destruct c as [c|]; [destruct o|]; repeat split; simpl; try done.
  - destruct o; repeat split; simpl; try done.
Qed.

Lemma scroll_tracks_open_run (p : Palette.State) (evs : list Palette.Event) :
  Palette.Unmount ∉ evs ->
  scroll_tracks_open p -> scroll_tracks_open (Palette.run p evs).
Proof.
  revert p. induction evs as [|ev evs IH]; intros p Hevs Hp; [done|].
  apply not_elem_of_cons in Hevs as [Hev Hevs]. simpl.
  apply IH; [done|]. apply scroll_tracks_open_step; [congruence | done].
Qed.

(** Every way of closing a mounted palette (the hotkey, escape, an outside
    click) releases the scroll lock. *)
Lemma scroll_released_on_close (its : list CommandItem) (host : string)
    (evs : list Palette.Event) :
  Palette.Unmount ∉ evs ->
  let p := Palette.run (Palette.mount its host) evs in
  Palette.open p = false -> Palette.scrollLocked p = false.
Proof.
  intros Hevs p Hopen.
  destruct (scroll_tracks_open_run _ evs Hevs (scroll_tracks_open_mount its host))
    as (_ & Hov & _).
  fold p in Hov. unfold Palette.scrollLocked. rewrite Hov, Hopen. done.
Qed.

(** C6, at the failing input. The host opens the palette and then removes
    it: the palette is gone and [document.body.style.overflowY] is still
    ["hidden"]. *)
Theorem scroll_lock_survives_unmount (its : list CommandItem) (host : string) :
  let p := Palette.run (Palette.mount its host) [Palette.Hotkey; Palette.Unmount] in
  Palette.mounted p = false /\
  Palette.visible p = false /\
  Palette.container p = None /\
  Palette.overflowY p = "hidden"%string /\
  Palette.scrollLocked p = true.
Proof. done. Qed.

(** ** Outside clicks *)

Section OutsideClickProperties.

Context {Node : Type}.
Variable contains : Node -> Node -> bool.

Lemma one_listener_mount (region : Node) :
  one_listener region (OutsideClick.mount region).
Proof. by exists 0%nat. Qed.

Lemma one_listener_rerender (region : Node) (r : bool) (st : OutsideClick.State) :
  one_listener region st -> one_listener region (OutsideClick.rerender r st).
Proof.
  intros [h ->]. destruct r; [|by exists h].
  exists (S h). unfold OutsideClick.rerender, OutsideClick.cleanup,
    OutsideClick.effect, OutsideClick.removeEventListener. simpl.
  by rewrite Nat.eqb_refl.
Qed.

Lemma one_listener_renders (region : Node) (rs : list bool) (st : OutsideClick.State) :
  one_listener region st -> one_listener region (OutsideClick.renders st rs).
Proof.
  revert st. induction rs as [|r rs IH]; intros st Hst; [done|].
  simpl. apply IH. by apply one_listener_rerender.
Qed.

(** C8. While the container is mounted, through any number of renders,
    a click calls the callback exactly once when its target lies outside
    the region and not at all when it lies inside. *)
Theorem outside_click_once (region : Node) (rs : list bool) (target : Node) :
  OutsideClick.dispatchClick contains
    (OutsideClick.renders (OutsideClick.mount region) rs) target
  = if contains region target then 0%nat else 1%nat.
Proof.
  destruct (one_listener_renders region rs _ (one_listener_mount region)) as [h ->].
  unfold OutsideClick.dispatchClick, OutsideClick.handler. simpl.
  by destruct (contains region target).
Qed.

(** X16. After the container unmounts, whatever renders came before, the
    document holds no listener of the hook and no click reaches the
    callback. *)
Lemma outside_click_detached (region : Node) (rs : list bool) (target : Node) :
  OutsideClick.listeners
    (OutsideClick.unmount (OutsideClick.renders (OutsideClick.mount region) rs)) = [] /\
  OutsideClick.dispatchClick contains
    (OutsideClick.unmount (OutsideClick.renders (OutsideClick.mount region) rs))
    target = 0%nat.
Proof.
  destruct (one_listener_renders region rs _ (one_listener_mount region)) as [h ->].
  unfold OutsideClick.dispatchClick, OutsideClick.unmount, OutsideClick.cleanup,
    OutsideClick.removeEventListener. simpl.
  by rewrite Nat.eqb_refl.
Qed.

End OutsideClickProperties.

Example click_on_overlay :
  OutsideClick.dispatchClick OutsideClick.demo_contains
    (OutsideClick.renders (OutsideClick.mount 2%nat) [true; false; true]) 1%nat = 1%nat.
Proof. reflexivity. Qed.

Example click_on_input :
  OutsideClick.dispatchClick OutsideClick.demo_contains
    (OutsideClick.renders (OutsideClick.mount 2%nat) [true; false; true]) 3%nat = 0%nat.
Proof. reflexivity. Qed.

(** * Further properties of the code *)

(** ** More on the filter *)

Lemma append_assoc (a b c : string) :
  ((a +:+ b) +:+ c)%string = (a +:+ b +:+ c)%string.
Proof.
  induction a as [|x a IH]; [reflexivity|].
  change (String x ((a +:+ b) +:+ c) = String x (a +:+ b +:+ c))%string.
  by f_equal.
Qed.

(** A part of a part of [s] is a part of [s]. *)
Lemma includes_trans (s p r : string) :
  includes s p = true -> includes p r = true -> includes s r = true.
Proof.
  rewrite !includes_spec. intros (x & y & ->) (u & v & ->).
  exists (x +:+ u)%string, (v +:+ y)%string.
  by rewrite !append_assoc.
Qed.

Lemma filter_sublist_impl {A} (f g : A -> bool) (l : list A) :
  (forall x, f x = true -> g x = true) ->
  sublist (List.filter f l) (List.filter g l).
Proof.
  intros Hfg. induction l as [|x l IH]; simpl; [constructor|].
  destruct (f x) eqn:Ef.
  - rewrite (Hfg x Ef). by constructor.
  - destruct (g x); [by constructor | done].
Qed.

Lemma filter_filter_impl {A} (f g : A -> bool) (l : list A) :
  (forall x, f x = true -> g x = true) ->
  List.filter f (List.filter g l) = List.filter f l.
Proof.
  intros Hfg. induction l as [|x l IH]; simpl; [done|].
  destruct (g x) eqn:Eg; simpl.
  - destruct (f x); by rewrite IH.
  - destruct (f x) eqn:Ef; [|done]. rewrite (Hfg x Ef) in Eg. discriminate.
Qed.

Lemma filter_true_sublist {A} (f : A -> bool) (l : list A) :
  sublist (List.filter f l) l.
Proof.
  induction l as [|x l IH]; simpl; [constructor|].
  destruct (f x); by constructor.
Qed.

Lemma filteredItems_sublist (L : list CommandItem) (q : string) :
  sublist (filteredItems L q) L.
Proof.
  unfold filteredItems, filteredItemsWith. destruct (_ <=? _); [done|]. apply filter_true_sublist.
Qed.

(** X3. Whatever the built-in lower-casing does: when the new query is
    not empty and its lower-cased form contains the lower-cased form of the
    old query, the new filtered list is a subsequence of the old one, and
    it is what filtering the old list by the new query gives. *)
Theorem filteredItemsWith_narrows (lower : string -> string)
    (L : list CommandItem) (q q' : string) :
  q' <> EmptyString ->
  includes (lower q') (lower q) = true ->
  sublist (filteredItemsWith lower L q') (filteredItemsWith lower L q) /\
  filteredItemsWith lower (filteredItemsWith lower L q) q' = filteredItemsWith lower L q'.
Proof.
  intros Hq' Hinc. unfold filteredItemsWith.
  destruct (Z.of_nat (String.length q') <=? 0) eqn:E.
  { by apply length_nonpositive in E. }
  destruct (Z.of_nat (String.length q) <=? 0) eqn:Eq.
  - split; [apply filter_true_sublist | done].
  - assert (forall item : CommandItem,
              includes (lower (name item)) (lower q') = true ->
              includes (lower (name item)) (lower q) = true) as Himpl.
    { intros item Hitem. by apply (includes_trans _ (lower q')). }
    split; [by apply filter_sublist_impl | by apply filter_filter_impl].
Qed.

(** From the query "op" to "OPEN": "Save" was already gone, nothing comes
    back. *)
Lemma filteredItemsWith_narrows_witness :
  "OPEN"%string <> EmptyString /\
  includes (toLowerCase "OPEN") (toLowerCase "op") = true /\
  sublist (filteredItemsWith toLowerCase scenario "OPEN")
          (filteredItemsWith toLowerCase scenario "op") /\
  filteredItemsWith toLowerCase (filteredItemsWith toLowerCase scenario "op") "OPEN"
    = filteredItemsWith toLowerCase scenario "OPEN".
Proof.
  assert ("OPEN"%string <> EmptyString) as H by discriminate.
  assert (includes (toLowerCase "OPEN") (toLowerCase "op") = true) as H' by reflexivity.
  split; [exact H|]. split; [exact H'|].
  exact (filteredItemsWith_narrows toLowerCase scenario "op" "OPEN" H H').
Defined.

(** ** More on the key-to-item map *)

(** The own properties of [itemMap]: under each key, the last item of the
    list that has the key. *)
Lemma itemMap_lookup_filter (its : list CommandItem) (k : string) :
  itemMap its !! k = last (List.filter (fun item => bool_decide (key item = k)) its).
Proof.
  induction its as [|x its IH] using rev_ind; [done|].
  rewrite itemMap_snoc, lookup_insert, List.filter_app. simpl.
  case_decide as Hk.
  - rewrite bool_decide_true by done. by rewrite last_snoc.
  - rewrite bool_decide_false by done. by rewrite app_nil_r.
Qed.

(** X4. When several items share a key, [itemMap] resolves the key to
    the last of them: a later item replaces an earlier one. *)
Theorem itemMap_lookup_last (its : list CommandItem) (k : string) (item : CommandItem) :
  last (List.filter (fun x => bool_decide (key x = k)) its) = Some item ->
  itemMap its !! k = Some item.
Proof. intros H. by rewrite itemMap_lookup_filter. Qed.

Lemma itemMap_lookup_last_witness :
  last (List.filter (fun x => bool_decide (key x = "a"%string))
          [mkItem 0 "a" "First"; mkItem 1 "b" "Other"; mkItem 2 "a" "Second"])
    = Some (mkItem 2 "a" "Second") /\
  itemMap [mkItem 0 "a" "First"; mkItem 1 "b" "Other"; mkItem 2 "a" "Second"]
    !! "a"%string = Some (mkItem 2 "a" "Second").
Proof.
  assert (last (List.filter (fun x => bool_decide (key x = "a"%string))
                  [mkItem 0 "a" "First"; mkItem 1 "b" "Other"; mkItem 2 "a" "Second"])
          = Some (mkItem 2 "a" "Second")) as H by reflexivity.
  split; [exact H|]. exact (itemMap_lookup_last _ _ _ H).
Defined.

(** ** More on acceptance *)

(** X5. In any state whose Selection is the key of some item,
    [acceptCommand] does not throw and alerts the name of the last item
    of the caller's list with that key. *)
Theorem acceptCommand_reports_last (st : Container.State) (k : string)
    (item : CommandItem) :
  selected st = Some k ->
  last (List.filter (fun x => bool_decide (key x = k)) (items st)) = Some item ->
  acceptCommand st = Ok [Alert (name item)].
Proof.
  intros Hk Hlast. unfold acceptCommand.
  by rewrite Hk, itemMap_lookup_filter, Hlast.
Qed.

Lemma acceptCommand_reports_last_witness :
  let st := Container.mkState
              [mkItem 0 "a" "First"; mkItem 1 "b" "Other"; mkItem 2 "a" "Second"]
              EmptyString (Some "a"%string) in
  selected st = Some "a"%string /\
  last (List.filter (fun x => bool_decide (key x = "a"%string)) (items st))
    = Some (mkItem 2 "a" "Second") /\
  acceptCommand st = Ok [Alert "Second"].
Proof.
  cbv zeta. split; [reflexivity|]. split; [reflexivity|].
  exact (acceptCommand_reports_last
           (Container.mkState
              [mkItem 0 "a" "First"; mkItem 1 "b" "Other"; mkItem 2 "a" "Second"]
              EmptyString (Some "a"%string))
           "a" (mkItem 2 "a" "Second") eq_refl eq_refl).
Defined.

(** ** More on navigation and selection *)

(** X6. The arrow keys, and any other key, change neither the item list
    nor the query nor the filtered list; only Selection can move. *)
Theorem keys_keep_filter (st : Container.State) (e : KeyName) :
  items (step st (KeyDown e)) = items st /\
  predicate (step st (KeyDown e)) = predicate st /\
  filtered (step st (KeyDown e)) = filtered st.
Proof. by destruct (step_KeyDown st e) as [->|(k & -> & _)]. Qed.

Lemma first_key_None (fi : list CommandItem) :
  first_key fi = None <-> fi = [].
Proof. by destruct fi. Qed.

Lemma selection_tracks_first (its : list CommandItem) (q : string) :
  selection_tracks (Container.mkState its q (first_key (filteredItems its q))).
Proof. apply first_key_None. Qed.

Lemma selection_tracks_step (st : Container.State) (op : Op) :
  selection_tracks st -> selection_tracks (step st op).
Proof.
  intros Hst. destruct op as [value|e| | |its].
  - rewrite step_Input. case_bool_decide; [done|]. apply selection_tracks_first.
  - destruct (step_KeyDown st e) as [->|(k & -> & Hk)]; [done|].
    unfold selection_tracks, filtered. simpl. fold (filtered st).
    split; [done|]. intros Hnil. rewrite Hnil in Hk. inversion Hk.
  - by rewrite step_Enter.
  - rewrite step_Recompute. apply selection_tracks_first.
  - rewrite step_ItemsChanged. apply selection_tracks_first.
Qed.

Lemma selection_tracks_run (st : Container.State) (ops : list Op) :
  selection_tracks st -> selection_tracks (run st ops).
Proof.
  revert st. induction ops as [|op ops IH]; intros st Hst; [done|].
  simpl. apply IH. by apply selection_tracks_step.
Qed.

Lemma selection_tracks_reached (its : list CommandItem) (ops : list Op) :
  selection_tracks (run (init its) ops).
Proof.
  apply selection_tracks_run. rewrite init_eq.
  apply (selection_tracks_first its EmptyString).
Qed.

(** X8. In every state reached from a freshly mounted container,
    Selection is absent exactly when the filtered list is empty. *)
Theorem selection_absent_iff_empty (its : list CommandItem) (ops : list Op) :
  selected (run (init its) ops) = None <-> filtered (run (init its) ops) = [].
Proof. apply selection_tracks_reached. Qed.

Lemma key_index_at (fi : list CommandItem) (i : nat) (item : CommandItem) :
  NoDup (key <$> fi) -> fi !! i = Some item -> key_index fi (key item) = Some i.
Proof.
  intros Hnd Hi. destruct (key_index fi (key item)) as [j|] eqn:E.
  - apply key_index_Some in E as (other & Hj & Hk & _). f_equal.
    apply (NoDup_lookup _ j i (key item) Hnd); rewrite list_lookup_fmap.
    + rewrite Hj. simpl. by rewrite Hk.
    + by rewrite Hi.
  - exfalso. apply (key_index_None _ _ E item); [|done].
    apply list_elem_of_lookup. eauto.
Qed.

Lemma filtered_keys_unique (st : Container.State) :
  NoDup (key <$> items st) -> NoDup (key <$> filtered st).
Proof.
  intros Hnd. apply (sublist_NoDup _ (key <$> items st)); [done|].
  apply fmap_sublist, filteredItems_sublist.
Qed.

(** Where the arrow keys lead from a given index, on uniquely keyed items. *)
Lemma arrows_from_focus_index (st : Container.State) :
  NoDup (key <$> items st) -> filtered st <> [] ->
  let fi := filtered st in
  let n := Z.of_nat (length fi) in
  let i := focus_index fi (selected st) in
  step st (KeyDown ArrowDown) =
    Container.mkState (items st) (predicate st)
      (key <$> fi !! Z.to_nat ((i + 1) mod n)) /\
  step st (KeyDown ArrowUp) =
    Container.mkState (items st) (predicate st)
      (if decide (1 <= i) then key <$> fi !! Z.to_nat (i - 1) else key <$> last fi).
Proof.
  intros Hnd Hfi fi n i.
  pose proof (focus_index_range fi (selected st) Hfi) as Hi. fold i n in Hi.
  pose proof (filtered_nonempty_length st Hfi) as Hlen.
  assert (0 < n) as Hn by (by apply Z.leb_gt in Hlen).
  pose proof (selectedIndex_focus_index st Hnd) as Hidx.
  unfold step, moveFocus. cbv zeta. rewrite Hlen, Hidx. fold fi i n.
  assert (0 <= (i + 1) mod n < n) as Hm by (apply Z.mod_pos_bound; lia).
  rewrite Z.rem_mod_nonneg by lia. rewrite at_index_lookup by lia. split.
  - destruct (fi !! Z.to_nat ((i + 1) mod n)) as [item|] eqn:E.
    + simpl. by apply commit_same_predicate.
    + apply lookup_ge_None in E. lia.
  - destruct (decide (1 <= i)) as [Hpos|Hneg].
    + rewrite at_index_lookup by lia.
      destruct (fi !! Z.to_nat (i - 1)) as [item|] eqn:E.
      * simpl. by apply commit_same_predicate.
      * apply lookup_ge_None in E. lia.
    + rewrite at_index_negative by lia. unfold n. rewrite at_index_last.
      simpl. by apply commit_same_predicate.
Qed.

Lemma step_arrows_at (st : Container.State) (i : nat) :
  NoDup (key <$> items st) -> (i < length (filtered st))%nat ->
  step (select_at st i) (KeyDown ArrowDown)
    = select_at st ((i + 1) mod length (filtered st))%nat /\
  step (select_at st i) (KeyDown ArrowUp)
    = select_at st ((i + (length (filtered st) - 1)) mod length (filtered st))%nat.
Proof.
  intros Hnd Hi.
  destruct (lookup_lt_is_Some_2 (filtered st) i Hi) as [item Hitem].
  assert (filtered st <> []) as Hfi by (intros E; rewrite E in Hi; simpl in Hi; lia).
  destruct (arrows_from_focus_index (select_at st i) Hnd Hfi) as [Hdown Hup].
  cbv zeta in Hdown, Hup. unfold select_at in *.
  change (filtered (Container.mkState (items st) (predicate st)
                      (key <$> filtered st !! i))) with (filtered st) in *.
  simpl in Hdown, Hup. rewrite Hitem in Hdown, Hup. simpl in Hdown, Hup.
  unfold focus_index in Hdown, Hup.
  rewrite (key_index_at _ _ _ (filtered_keys_unique st Hnd) Hitem) in Hdown, Hup.
  set (n := length (filtered st)) in *.
  rewrite Hitem. simpl. split.
  - rewrite Hdown. do 2 f_equal.
    replace (Z.of_nat i + 1) with (Z.of_nat (i + 1)) by lia.
    by rewrite <- Nat2Z.inj_mod, Nat2Z.id.
  - rewrite Hup. f_equal. destruct (decide (1 <= Z.of_nat i)) as [Hpos|Hneg].
    + do 2 f_equal. replace (i + (n - 1))%nat with ((i - 1) + 1 * n)%nat by lia.
      rewrite Nat.Div0.mod_add, Nat.mod_small by lia. lia.
    + replace i with 0%nat by lia. simpl.
      rewrite Nat.mod_small by lia. rewrite last_lookup. do 2 f_equal. lia.
Qed.

Lemma select_at_again (st : Container.State) (i j : nat) :
  select_at (select_at st i) j = select_at st j.
Proof. done. Qed.

(** Pressing a key [m] times, when one press advances the index by [d]. *)
Lemma run_replicate_at (st : Container.State) (op : Op) (d n : nat) :
  n <> 0%nat ->
  (forall i, (i < n)%nat -> step (select_at st i) op = select_at st ((i + d) mod n)%nat) ->
  forall m i, (i < n)%nat ->
    run (select_at st i) (replicate m op) = select_at st ((i + m * d) mod n)%nat.
Proof.
  intros Hn Hstep m. induction m as [|m IH]; intros i Hi.
  - simpl. by rewrite Nat.add_0_r, Nat.mod_small.
  - simpl. rewrite (Hstep i Hi).
    unfold run in IH. rewrite IH by (by apply Nat.mod_upper_bound).
    rewrite Nat.Div0.add_mod_idemp_l. do 2 f_equal. lia.
Qed.

(** A reached state with something listed has one of the listed items
    selected. *)
Lemma reached_select_at (its : list CommandItem) (ops : list Op) :
  let st := run (init its) ops in
  filtered st <> [] ->
  exists i, (i < length (filtered st))%nat /\ st = select_at st i.
Proof.
  intros st Hfi.
  destruct (selected st) as [k|] eqn:Hsel.
  - pose proof (selection_valid_run _ ops (selection_valid_init its) k Hsel) as Hk.
    fold st in Hk. apply list_elem_of_fmap in Hk as (item & -> & Hin).
    apply list_elem_of_lookup in Hin as [i Hi]. exists i. split.
    + by apply lookup_lt_Some in Hi.
    + unfold select_at. rewrite Hi. simpl. rewrite <- Hsel. by destruct st.
  - apply (selection_tracks_reached its ops) in Hsel. by destruct Hfi.
Qed.

Lemma step_KeyDown_empty (st : Container.State) (e : KeyName) :
  filtered st = [] -> step st (KeyDown e) = st.
Proof.
  intros Hfi. unfold step, moveFocus. cbv zeta. rewrite Hfi. simpl.
  by apply commit_same_predicate.
Qed.

(** X9. On uniquely keyed items, in every reached state, pressing "down"
    as many times as there are filtered items brings Selection back to
    where it was, and so does pressing "up" that many times. *)
Theorem arrows_full_cycle (its : list CommandItem) (ops : list Op) :
  let st := run (init its) ops in
  NoDup (key <$> items st) ->
  run st (replicate (length (filtered st)) (KeyDown ArrowDown)) = st /\
  run st (replicate (length (filtered st)) (KeyDown ArrowUp)) = st.
Proof.
  intros st Hnd. destruct (decide (filtered st = [])) as [Hfi|Hfi].
  - rewrite Hfi. done.
  - destruct (reached_select_at its ops Hfi) as (i & Hi & Hst). fold st in Hi, Hst.
    set (n := length (filtered st)) in *.
    assert (n <> 0%nat) as Hn by lia.
    assert (run (select_at st i) (replicate n (KeyDown ArrowDown)) = select_at st i /\
            run (select_at st i) (replicate n (KeyDown ArrowUp)) = select_at st i)
      as Hcycle.
    { split.
      - rewrite (run_replicate_at st _ 1 n Hn); [|by intros j Hj; apply step_arrows_at|done].
        rewrite Nat.mul_comm. by rewrite Nat.Div0.mod_add, Nat.mod_small.
      - rewrite (run_replicate_at st _ (n - 1) n Hn);
          [|by intros j Hj; apply step_arrows_at|done].
        rewrite Nat.mul_comm. by rewrite Nat.Div0.mod_add, Nat.mod_small. }
    rewrite Hst. exact Hcycle.
Qed.

Lemma arrows_full_cycle_witness :
  let st := run (init scenario) [Input "open"; KeyDown ArrowDown] in
  NoDup (key <$> items st) /\
  length (filtered st) = 2%nat /\
  run st (replicate (length (filtered st)) (KeyDown ArrowDown)) = st /\
  run st (replicate (length (filtered st)) (KeyDown ArrowUp)) = st.
Proof.
  cbv zeta. split; [exact scenario_keys_unique|]. split; [reflexivity|].
  exact (arrows_full_cycle scenario [Input "open"; KeyDown ArrowDown] scenario_keys_unique).
Defined.

(** X10. On uniquely keyed items, in every reached state, "up" undoes
    "down" and "down" undoes "up". *)
Theorem arrows_inverse (its : list CommandItem) (ops : list Op) :
  let st := run (init its) ops in
  NoDup (key <$> items st) ->
  step (step st (KeyDown ArrowDown)) (KeyDown ArrowUp) = st /\
  step (step st (KeyDown ArrowUp)) (KeyDown ArrowDown) = st.
Proof.
  intros st Hnd. destruct (decide (filtered st = [])) as [Hfi|Hfi].
  - rewrite (step_KeyDown_empty st ArrowDown Hfi), (step_KeyDown_empty st ArrowUp Hfi).
    split; [done | by apply step_KeyDown_empty].
  - destruct (reached_select_at its ops Hfi) as (i & Hi & Hst). fold st in Hi, Hst.
    set (n := length (filtered st)) in *.
    assert (step (step (select_at st i) (KeyDown ArrowDown)) (KeyDown ArrowUp)
              = select_at st i /\
            step (step (select_at st i) (KeyDown ArrowUp)) (KeyDown ArrowDown)
              = select_at st i) as Hinv.
    { destruct (step_arrows_at st i Hnd Hi) as [Hdown Hup]. fold n in Hdown, Hup.
      rewrite Hdown, Hup. split.
      - destruct (step_arrows_at st ((i + 1) mod n)%nat Hnd) as [_ ->];
          [apply Nat.mod_upper_bound; lia|]. fold n. f_equal.
        rewrite Nat.Div0.add_mod_idemp_l.
        replace (i + 1 + (n - 1))%nat with (i + 1 * n)%nat by lia.
        by rewrite Nat.Div0.mod_add, Nat.mod_small.
      - destruct (step_arrows_at st ((i + (n - 1)) mod n)%nat Hnd) as [-> _];
          [apply Nat.mod_upper_bound; lia|]. fold n. f_equal.
        rewrite Nat.Div0.add_mod_idemp_l.
        replace (i + (n - 1) + 1)%nat with (i + 1 * n)%nat by lia.
        by rewrite Nat.Div0.mod_add, Nat.mod_small. }
    rewrite Hst. exact Hinv.
Qed.

Lemma arrows_inverse_witness :
  let st := run (init scenario) [KeyDown ArrowDown] in
  NoDup (key <$> items st) /\
  selected st = Some "b"%string /\
  step (step st (KeyDown ArrowDown)) (KeyDown ArrowUp) = st /\
  step (step st (KeyDown ArrowUp)) (KeyDown ArrowDown) = st.
Proof.
  cbv zeta. split; [exact scenario_keys_unique|]. split; [reflexivity|].
  exact (arrows_inverse scenario [KeyDown ArrowDown] scenario_keys_unique).
Defined.

(** ** What is rendered *)

Lemma rows_none_selected (fi : list CommandItem) (k : string) :
  k ∉ key <$> fi ->
  List.filter row_selected
    (map (fun x => mkRow (key x) x (bool_decide (Some (key x) = Some k))) fi) = [].
Proof.
  induction fi as [|x fi IH]; [done|].
  rewrite fmap_cons, not_elem_of_cons. intros [Hx Hfi]. simpl.
  rewrite bool_decide_false by congruence. by apply IH.
Qed.

Lemma rows_one_selected (fi : list CommandItem) (i : nat) (item : CommandItem) :
  NoDup (key <$> fi) -> fi !! i = Some item ->
  List.filter row_selected
    (map (fun x => mkRow (key x) x (bool_decide (Some (key x) = Some (key item)))) fi)
  = [mkRow (key item) item true].
Proof.
  revert i. induction fi as [|x fi IH]; intros i Hnd Hi; [done|].
  rewrite fmap_cons in Hnd. apply NoDup_cons in Hnd as [Hx Hnd].
  destruct i as [|i]; simpl in Hi.
  - injection Hi as ->. simpl. rewrite bool_decide_true by done.
    f_equal. by apply rows_none_selected.
  - simpl. rewrite bool_decide_false.
    + by apply (IH i).
    + intros [= Hk]. apply Hx. rewrite Hk.
      apply list_elem_of_fmap. exists item. split; [done|].
      apply list_elem_of_lookup. eauto.
Qed.

(** X11. On uniquely keyed items, in every reached state: when nothing
    matches, the "No Items" notice is shown and no row is rendered;
    otherwise the notice is hidden and exactly one rendered row is marked
    selected, the row of the item whose key is Selection. *)
Theorem render_one_highlight (its : list CommandItem) (ops : list Op) :
  let st := run (init its) ops in
  NoDup (key <$> items st) ->
  (filtered st = [] -> showNoItems st = true /\ rows st = []) /\
  (filtered st <> [] ->
   showNoItems st = false /\
   exists item, item ∈ filtered st /\ selected st = Some (key item) /\
     List.filter row_selected (rows st) = [mkRow (key item) item true]).
Proof.
  intros st Hnd. split.
  - intros Hfi. unfold showNoItems, rows. by rewrite Hfi.
  - intros Hfi. split.
    { unfold showNoItems. destruct (filtered st); [done|]. simpl. lia. }
    destruct (reached_select_at its ops Hfi) as (i & Hi & Hst). fold st in Hi, Hst.
    destruct (lookup_lt_is_Some_2 (filtered st) i Hi) as [item Hitem].
    assert (selected st = Some (key item)) as Hsel.
    { rewrite Hst. unfold select_at. simpl. by rewrite Hitem. }
    exists item. split; [apply list_elem_of_lookup; eauto|]. split; [done|].
    unfold rows. rewrite Hsel.
    apply (rows_one_selected _ i); [by apply filtered_keys_unique | done].
Qed.

Lemma render_one_highlight_witness :
  let st := run (init scenario) [Input "open"; KeyDown ArrowDown] in
  NoDup (key <$> items st) /\
  row_selected <$> rows st = [false; true] /\
  ((filtered st = [] -> showNoItems st = true /\ rows st = []) /\
   (filtered st <> [] ->
    showNoItems st = false /\
    exists item, item ∈ filtered st /\ selected st = Some (key item) /\
      List.filter row_selected (rows st) = [mkRow (key item) item true])).
Proof.
  cbv zeta. split; [exact scenario_keys_unique|]. split; [reflexivity|].
  exact (render_one_highlight scenario [Input "open"; KeyDown ArrowDown]
           scenario_keys_unique).
Defined.

(** ** More on the palette *)

(** X13. As long as the host keeps the palette mounted, after any events
    the document's scroll is locked exactly when the palette is open, and
    an open palette has its container mounted. *)
Theorem scroll_mirrors_open (its : list CommandItem) (host : string)
    (evs : list Palette.Event) :
  Palette.Unmount ∉ evs ->
  let p := Palette.run (Palette.mount its host) evs in
  Palette.mounted p = true /\
  Palette.scrollLocked p = Palette.open p /\
  (Palette.open p = true -> is_Some (Palette.container p)).
Proof.
  intros Hevs p.
  destruct (scroll_tracks_open_run _ evs Hevs (scroll_tracks_open_mount its host))
    as (Hm & Hov & Hc).
  fold p in Hm, Hov, Hc. split; [done|]. split; [|done].
  unfold Palette.scrollLocked. rewrite Hov. by destruct (Palette.open p).
Qed.

(** Opened, closed by escape, reopened while the container is still
    leaving: the scroll is locked again. *)
Lemma scroll_mirrors_open_witness :
  let evs := [Palette.Hotkey; Palette.Typed "open"; Palette.Escape; Palette.Hotkey] in
  let p := Palette.run (Palette.mount scenario "scroll") evs in
  (Palette.Unmount ∉ evs) /\
  Palette.open p = true /\
  (Palette.mounted p = true /\
   Palette.scrollLocked p = Palette.open p /\
   (Palette.open p = true -> is_Some (Palette.container p))).
Proof.
  cbv zeta.
  assert (Palette.Unmount ∉ [Palette.Hotkey; Palette.Typed "open"; Palette.Escape;
                             Palette.Hotkey]) as H.
  { rewrite !not_elem_of_cons. repeat split; try discriminate. apply not_elem_of_nil. }
  split; [exact H|]. split; [reflexivity|].
  exact (scroll_mirrors_open scenario "scroll" _ H).
Defined.

(** Reopening while the container is still leaving keeps what was typed;
    once the leave transition has ended, reopening starts afresh. *)
Example reopen_while_leaving :
  predicate <$> Palette.container
    (Palette.run (Palette.mount scenario "auto")
       [Palette.Hotkey; Palette.Typed "sa"; Palette.Escape; Palette.Hotkey])
  = Some "sa"%string.
Proof. reflexivity. Qed.

Example reopen_after_leave :
  predicate <$> Palette.container
    (Palette.run (Palette.mount scenario "auto")
       [Palette.Hotkey; Palette.Typed "sa"; Palette.Escape; Palette.LeaveEnd;
        Palette.Hotkey])
  = Some EmptyString.
Proof. reflexivity. Qed.

Lemma overflow_step (p : Palette.State) (ev : Palette.Event) :
  Palette.overflowY p = "hidden"%string \/ Palette.overflowY p = "auto"%string ->
  Palette.overflowY (Palette.step p ev) = "hidden"%string \/
  Palette.overflowY (Palette.step p ev) = "auto"%string.
Proof.
  intros Hov. destruct p as [m o pits c ov]. simpl in Hov.
  unfold Palette.step. destruct m; [|done]. cbn [Palette.mounted negb].
  destruct ev; try done.
  - destruct o; simpl; auto.
  - destruct c; [|done]. destruct o; simpl; auto.
  - destruct c; [|done]. destruct o; simpl; auto.
Qed.

(** X14. Once the palette has mounted, [document.body.style.overflowY]
    is ["hidden"] or ["auto"] after every sequence of events, unmounting
    included: the value the host had set before is never put back. *)
Theorem overflow_never_restored (its : list CommandItem) (host : string)
    (evs : list Palette.Event) :
  let p := Palette.run (Palette.mount its host) evs in
  Palette.overflowY p = "hidden"%string \/ Palette.overflowY p = "auto"%string.
Proof.
  intros p. subst p.
  assert (Palette.overflowY (Palette.mount its host) = "hidden"%string \/
          Palette.overflowY (Palette.mount its host) = "auto"%string) as H by (by right).
  revert H. generalize (Palette.mount its host). 
  induction evs as [|ev evs IH]; intros p Hp; [done|].
  simpl. apply IH. by apply overflow_step.
Qed.

Lemma container_valid_step (p : Palette.State) (ev : Palette.Event) :
  container_valid p -> container_valid (Palette.step p ev).
Proof.
  intros Hp. destruct p as [m o pits c ov]. unfold container_valid in *. simpl in Hp.
  assert (forall op c', (fun x => step x op) <$> c = Some c' -> selection_valid c') as Hchild.
  { intros op c' Hc'. destruct c as [x|]; [|done]. injection Hc' as <-.
    apply selection_valid_step. by apply Hp. }
  assert (forall c', Some (default (init pits) c) = Some c' -> selection_valid c') as Hshow.
  { intros c' [= <-]. destruct c as [x|]; simpl; [by apply Hp|].
    apply selection_valid_init. }
  unfold Palette.step. destruct m; [|done]. cbn [Palette.mounted negb].
  destruct ev.
  - destruct o; simpl; [exact Hp | exact Hshow].
  - destruct c; [|done]. destruct o; simpl; exact Hp.
  - destruct c; [|done]. destruct o; simpl; exact Hp.
  - exact (Hchild (Input value)).
  - exact (Hchild (KeyDown e)).
  - exact (Hchild Enter).
  - exact (Hchild (ItemsChanged its)).
  - destruct o; simpl; [exact Hp | done].
  - done.
Qed.

Lemma container_valid_run (p : Palette.State) (evs : list Palette.Event) :
  container_valid p -> container_valid (Palette.run p evs).
Proof.
  revert p. induction evs as [|ev evs IH]; intros p Hp; [done|].
  simpl. apply IH. by apply container_valid_step.
Qed.

(** X15. Through any events on the palette (opening, closing, typing,
    arrow keys, enter, new item lists), the mounted container's Selection
    is the key of a filtered item, and [acceptCommand] does not throw. *)
Theorem palette_accept_safe (its : list CommandItem) (host : string)
    (evs : list Palette.Event) (c : Container.State) :
  Palette.container (Palette.run (Palette.mount its host) evs) = Some c ->
  selection_valid c /\ exists acts, acceptCommand c = Ok acts.
Proof.
  intros Hc.
  assert (selection_valid c) as Hvalid.
  { apply (container_valid_run (Palette.mount its host) evs); [|done]. by intros c'. }
  split; [done|]. unfold acceptCommand.
  destruct (selected c) as [k|] eqn:Hk; [|by eexists].
  destruct (selection_valid_lookup c k Hvalid Hk) as (item & -> & _). by eexists.
Qed.

Lemma palette_accept_safe_witness :
  let evs := [Palette.Hotkey; Palette.Typed "o"; Palette.NewItems [mkItem 7 "s" "Sort"];
              Palette.Key ArrowUp] in
  let c := Container.mkState [mkItem 7 "s" "Sort"] "o" (Some "s"%string) in
  Palette.container (Palette.run (Palette.mount scenario "auto") evs) = Some c /\
  (selection_valid c /\ exists acts, acceptCommand c = Ok acts).
Proof.
  cbv zeta.
  assert (Palette.container
            (Palette.run (Palette.mount scenario "auto")
               [Palette.Hotkey; Palette.Typed "o"; Palette.NewItems [mkItem 7 "s" "Sort"];
                Palette.Key ArrowUp])
          = Some (Container.mkState [mkItem 7 "s" "Sort"] "o" (Some "s"%string))) as H
    by (vm_compute; reflexivity).
  split; [exact H|]. exact (palette_accept_safe scenario "auto" _ _ H).
Defined.

(** Two queries that differ only in the case of their letters. *)
Lemma filteredItems_case_insensitive_witness :
  toLowerCase "OpEn" = toLowerCase "oPEN" /\
  filteredItems scenario "OpEn" = filteredItems scenario "oPEN".
Proof.
  assert (toLowerCase "OpEn" = toLowerCase "oPEN") as H by reflexivity.
  split; [exact H|]. exact (filteredItems_case_insensitive scenario _ _ H).
Defined.
